(** * mardor.reader: reading, extracting and verifying MAR archives

    A shallow embedding of [src/mardor/reader.py] (class [MarReader]) and
    the properties of its read path: the lazy decompression cache
    ([fileobj] / [decompress]), the entry extraction pipeline
    ([extract_entry] / [extract]) and signature verification ([verify]).

    Python objects that are mutated in place (file objects, the reader
    itself) live in an explicit state; a method is a function from a state
    to a result (a value or a raised exception) and a new state.  A
    generator is modelled by what draining it produces: the blocks it
    yields, how it ends, and the state it leaves behind. *)

From Stdlib.Strings Require Import Byte.
From Stdlib Require Import Ascii String NArith Lia.
From stdpp Require Import base list strings.

Local Open Scope nat_scope.

(** ** Bytes, file objects and the heap *)

Definition bytes := list byte.
Definition handle := nat.

(** A binary file object: its contents, the current position and whether
    [close()] was called on it. *)
Record file := File {
  f_data : bytes;
  f_pos : nat;
  f_closed : bool
}.

Definition new_file : file := File [] 0 false.

(** [f.seek(p)]: positions past the end are allowed. *)
Definition f_seek (p : nat) (f : file) : file :=
  File (f_data f) p (f_closed f).

(** [f.read(n)]: at most [n] bytes from the current position. *)
Definition f_read (n : nat) (f : file) : bytes * file :=
  let b := take n (drop (f_pos f) (f_data f)) in
  (b, File (f_data f) (f_pos f + length b) (f_closed f)).

(** [f.write(b)]: overwrites from the current position; when the position is
    past the end the gap reads back as zero bytes.  Writing nothing leaves
    the file as it is. *)
Definition f_write (b : bytes) (f : file) : file :=
  match b with
  | [] => f
  | _ =>
    File (take (f_pos f) (f_data f ++ replicate (f_pos f - length (f_data f)) x00)
            ++ b ++ drop (f_pos f + length b) (f_data f))
         (f_pos f + length b) (f_closed f)
  end.

(** ** Exceptions *)

(** What can go wrong while a stream of blocks is pulled: these are the
    errors of the stream utilities and of the codecs. *)
Inductive stream_error :=
| NotEnoughData (yielded wanted : nat)   (* ValueError of takeexactly *)
| CodecError (msg : string)              (* a decompression filter rejects its input *)
| FormatError (msg : string).            (* the signed range cannot be located *)

Inductive exn :=
| StreamError (e : stream_error)
| UnsupportedAlgorithm (algorithm_id : N)  (* ValueError('Unsupported algorithm ({})') *)
| OutsideBasePath (name : string)          (* ValueError of safejoin *)
| InvalidSignature                         (* cryptography.exceptions.InvalidSignature *)
| AssertionError
| ClosedFile (h : handle)                  (* ValueError: I/O operation on closed file *)
| OSError (msg : string)                   (* open() / mkdir() failures *)
| ParseError (msg : string)                (* mar.parse_stream rejects the input *)
| OtherError (msg : string).

Inductive res (A : Type) :=
| Ok (a : A)
| Raise (e : exn).
Arguments Ok {A} a.
Arguments Raise {A} e.

(** ** Streams of blocks

    The stream utilities are generators over a file object.  A stream records
    the blocks a full drain yields, each with the position of the underlying
    file at the moment the block is handed over, how the generator ends, and
    the position of the file at that point. *)
Record stream := Stream {
  items : list (bytes * nat);
  ending : option stream_error;
  final_pos : nat
}.

Definition blocks (s : stream) : list bytes := (items s).*1.
Definition content (s : stream) : bytes := concat (blocks s).

Section StreamUtils.

(** The size of the blocks [file_iter] asks for in each [read]. *)
Variable block_size : nat.

Fixpoint file_iter_from (fuel : nat) (f : file) : list (bytes * nat) :=
  match fuel with
  | 0 => []
  | S fuel' =>
    let '(b, f') := f_read block_size f in
    match b with
    | [] => []
    | _ => (b, f_pos f') :: file_iter_from fuel' f'
    end
  end.

Definition last_pos (p : nat) (its : list (bytes * nat)) : nat :=
  match last its with
  | Some (_, q) => q
  | None => p
  end.

(** Modelled from the spec: [mardor.utils.file_iter] is not part of the
    sources at hand; the spec lists it under the stream utilities as block
    iteration over a file in fixed-size blocks.  It reads [block_size]
    bytes at a time from the current position until a read comes back
    empty.  Every block that is not empty consumes at least one byte, so
    [length (f_data f)] rounds are enough (see [file_iter_content]). *)
Definition file_iter (f : file) : stream :=
  let its := file_iter_from (length (f_data f)) f in
  Stream its None (last_pos (f_pos f) its).

(** The loop of [takeexactly]: [total] bytes were yielded so far.  Returns
    the items yielded, the final total and, when the loop was left by
    [break], the position at which the abandoned source stands. *)
Fixpoint takeexactly_loop (its : list (bytes * nat)) (size total : nat)
  : list (bytes * nat) * nat * option nat :=
  match its with
  | [] => ([], total, None)
  | (b, q) :: rest =>
    let b' := take (size - total) b in
    let total' := total + length b' in
    let out := match b' with [] => [] | _ => [(b', q)] end in
    if size <=? total' then (out, total', Some q)
    else
      let '(o, t, brk) := takeexactly_loop rest size total' in
      (out ++ o, t, brk)
  end.

(** Modelled from the spec: [mardor.utils.takeexactly] is not part of the
    sources at hand; the spec describes it as a bounded iterator that yields
    exactly [size] bytes in total and fails with a length-mismatch error if
    the underlying stream is exhausted early, never padding or truncating
    silently.  It stops pulling as soon as [size] bytes were yielded. *)
Definition takeexactly (src : stream) (size : nat) : stream :=
  let '(o, t, brk) := takeexactly_loop (items src) size 0 in
  match brk with
  | Some q => Stream o None q
  | None =>
    match ending src with
    | Some e => Stream o (Some e) (final_pos src)
    | None =>
      Stream o (if t <? size then Some (NotEnoughData t size) else None)
             (final_pos src)
    end
  end.

End StreamUtils.

(** ** The parsed archive ([mardor.format.mar]) *)

(** An entry of the index.  The Python fields are [name], [offset] and
    [size]; they carry a prefix here because stdpp already uses [size]. *)
Record index_entry := IndexEntry {
  e_name : string;
  e_offset : nat;
  e_size : nat
}.

Record sig_entry := SigEntry {
  algorithm_id : N;
  signature : bytes
}.

Record sigs_header := SigsHeader {
  filesize : nat;
  sigs : list sig_entry
}.

Record mar := Mar {
  data_offset : nat;
  data_length : nat;
  index_entries : list index_entry;          (* mardata.index.entries *)
  signatures : option sigs_header;           (* None when the block is absent *)
  mar_is_compressed : bool                   (* mardata.is_compressed *)
}.

(** [class Decompression(Enum)] *)
Module Decompression.
Inductive t := none | auto | bz2 | xz.
End Decompression.

(** ** Collaborators

    What [reader.py] imports and calls but does not define: the codecs, the
    signature helpers and the verifier objects of the cryptography package.
    They are taken as parameters; every theorem below holds for all of them. *)
Class Collaborators := {
  (** block size of [file_iter] *)
  block_size : nat;
  (** the decompression filters of [mardor.utils], generators over a stream *)
  xz_decompress_stream : stream -> stream;
  bz2_decompress_stream : stream -> stream;
  auto_decompress_stream : stream -> stream;
  (** [mardor.signing.get_signature_data(fileobj, filesize)]: the blocks of
      the signed range of a file, signatures left out *)
  get_signature_data : file -> nat -> stream;
  (** [mardor.format.mar.parse_stream] *)
  parse_stream : file -> res mar * file;
  (** [SigningAlgo.SHA1] and [SigningAlgo.SHA384] *)
  SigningAlgo_SHA1 : N;
  SigningAlgo_SHA384 : N;
  (** keys and verifier objects: [update(block)] mutates the verifier,
      [verify()] returns or raises *)
  Key : Type;
  verifier : Type;
  make_verifier_v1 : Key -> bytes -> verifier;
  make_verifier_v2 : Key -> bytes -> verifier;
  v_update : verifier -> bytes -> verifier;
  v_verify : verifier -> res unit
}.

(** ** Paths and the file system *)

(** An absolute, normalised path, as the list of its components below the
    root. *)
Definition path := list string.

(** [os.path.dirname] *)
Definition dirname (p : path) : path := removelast p.

(** The components of a POSIX path string, split at every slash. *)
Fixpoint split_on_slash (s : string) (cur : string) : list string :=
  match s with
  | EmptyString => [cur]
  | String c s' =>
    if Ascii.eqb c "/"%char then cur :: split_on_slash s' EmptyString
    else split_on_slash s' (String.append cur (String c EmptyString))
  end.

(** [os.path.normpath] on components, from the root: empty components and
    [.] are dropped, [..] removes the component before it (and stays at the
    root when there is none).  [up] is the path so far, innermost first. *)
Fixpoint normpath (comps : list string) (up : list string) : path :=
  match comps with
  | [] => rev up
  | c :: cs =>
    if String.eqb c EmptyString || String.eqb c "." then normpath cs up
    else if String.eqb c ".." then normpath cs (tail up)
    else normpath cs (c :: up)
  end.

(** [os.path.join(base, name)]: an absolute [name] discards [base]. *)
Definition join (base : path) (name : string) : list string :=
  match name with
  | String c _ =>
    if Ascii.eqb c "/"%char then split_on_slash name EmptyString
    else base ++ split_on_slash name EmptyString
  | EmptyString => base ++ split_on_slash name EmptyString
  end.

(** [p] lies strictly below the directory [base]. *)
Fixpoint strictly_inside (base p : path) : bool :=
  match base, p with
  | [], _ :: _ => true
  | b :: base', c :: p' => String.eqb b c && strictly_inside base' p'
  | _, _ => false
  end.

(** Modelled from the spec: [mardor.utils.safejoin] is not part of the
    sources at hand; the spec describes it as the traversal-safe path join:
    it joins the destination directory with the entry's name, neutralises
    traversal components, and refuses (with an error) to give a path that
    would place the output outside the destination directory.  [base] is
    the absolute, normalised destination directory. *)
Definition safejoin (base : path) (name : string) : res path :=
  let p := normpath (join base name) [] in
  if strictly_inside base p then Ok p else Raise (OutsideBasePath name).

(** ** The state: the reader object, the heap of file objects, the file
    system, the trace *)

Record MarReader := Reader {
  _raw_fileobj : handle;
  _decompressed_fileobj : option handle;
  mardata : mar;
  is_compressed : bool
}.

(** What the reader did, in order.  The trace is only written, never read by
    the code: it is what the theorems count. *)
Inductive event :=
| EvDecompress                         (* decompress() entered *)
| EvTempfile (h : handle)              (* tempfile.TemporaryFile() *)
| EvRead (h : handle)                  (* a generator read from file h *)
| EvMakeVerifier (algorithm_id : N)    (* make_verifier_v1 / _v2 *)
| EvVerify (i : nat) (r : res unit)    (* verifiers[i].verify() *)
| EvMkdir (p : path)                   (* mkdir(p) *)
| EvOpen (p : path) (h : handle)       (* open(p, 'wb') *)
| EvClose (h : handle).                (* h.close() *)

Record state := State {
  self : MarReader;
  heap : list file;
  files : list (path * bytes);   (* regular files on disk; the first match counts *)
  dirs : list path;              (* directories on disk *)
  trace : list event
}.

Definition set_self (r : MarReader) (s : state) : state :=
  State r (heap s) (files s) (dirs s) (trace s).
Definition set_heap (hp : list file) (s : state) : state :=
  State (self s) hp (files s) (dirs s) (trace s).
Definition set_files (fl : list (path * bytes)) (s : state) : state :=
  State (self s) (heap s) fl (dirs s) (trace s).
Definition set_dirs (ds : list path) (s : state) : state :=
  State (self s) (heap s) (files s) ds (trace s).
Definition add_event (ev : event) (s : state) : state :=
  State (self s) (heap s) (files s) (dirs s) (trace s ++ [ev]).

(** ** The monad of methods *)

Definition M (A : Type) : Type := state -> res A * state.

Definition ret {A} (a : A) : M A := fun s => (Ok a, s).
Definition raise {A} (e : exn) : M A := fun s => (Raise e, s).
Definition bind {A B} (m : M A) (k : A -> M B) : M B :=
  fun s =>
    match m s with
    | (Ok a, s') => k a s'
    | (Raise e, s') => (Raise e, s')
    end.

Notation "x <- m ;; k" := (bind m (fun x => k))
  (at level 20, m at level 99, k at level 200, only parsing).
Notation "m ;; k" := (bind m (fun _ => k))
  (at level 100, k at level 200, only parsing, right associativity).

Definition get_state : M state := fun s => (Ok s, s).
Definition modify (f : state -> state) : M unit := fun s => (Ok tt, f s).
Definition log (ev : event) : M unit := modify (add_event ev).

(** A generator, by what draining it gives: the blocks yielded and the
    exception that ended it, if any. *)
Definition drained : Type := list bytes * option exn.
Definition Gen : Type := state -> drained * state.

(** ** Operations on file objects of the heap *)

(** The file object behind a handle; any operation on a closed file raises. *)
Definition get_file (h : handle) : M file :=
  fun s =>
    match heap s !! h with
    | Some f => if f_closed f then (Raise (ClosedFile h), s) else (Ok f, s)
    | None => (Raise (OtherError "no such file object"), s)
    end.

Definition put_file (h : handle) (f : file) : M unit :=
  modify (fun s => set_heap (<[h := f]> (heap s)) s).

Definition file_seek (h : handle) (p : nat) : M unit :=
  f <- get_file h ;; put_file h (f_seek p f).

(** [tempfile.TemporaryFile()]: a new, empty file object. *)
Definition TemporaryFile : M handle :=
  fun s =>
    let h := length (heap s) in
    (Ok h, add_event (EvTempfile h) (set_heap (heap s ++ [new_file]) s)).

(** Draining a generator that reads file [h]: [mk] builds the generator from
    the file as it stands when the first block is pulled. *)
Definition pull (h : handle) (mk : file -> stream) : Gen :=
  fun s =>
    match get_file h s with
    | (Raise e, s') => (([], Some e), s')
    | (Ok f, s') =>
      let st := mk f in
      ((blocks st, option_map StreamError (ending st)),
       add_event (EvRead h) (set_heap (<[h := f_seek (final_pos st) f]> (heap s')) s'))
    end.

(** Modelled from the spec: [mardor.utils.write_to_file(src, dst)] is not
    part of the sources at hand (the spec names file writing among the stream
    utilities): it writes every block of [src] to [dst] and returns the
    number of bytes written.  The blocks yielded before [src] raises are
    written.  The reader passes a file it has just created as [dst]. *)
Definition write_to_file (src : Gen) (dst : handle) : M nat :=
  f <- get_file dst ;;
  fun s =>
    let '((bs, e), s') := src s in
    let s'' := set_heap (<[dst := foldl (fun f b => f_write b f) f bs]> (heap s')) s' in
    match e with
    | Some x => (Raise x, s'')
    | None => (Ok (length (concat bs)), s'')
    end.

(** ** Operations on the file system *)

Fixpoint prefixes (p : path) : list path :=
  match p with
  | [] => [[]]
  | c :: p' => [] :: map (cons c) (prefixes p')
  end.

Definition path_eqb (p q : path) : bool := bool_decide (p = q).

Definition is_file (p : path) (s : state) : bool :=
  existsb (fun '(q, _) => path_eqb p q) (files s).
Definition is_dir (p : path) (s : state) : bool :=
  existsb (path_eqb p) (dirs s).

(** Modelled from the spec: [mardor.utils.mkdir] is not part of the sources
    at hand; the spec names it as recursive directory creation: the
    directory and its missing parents are created.  It fails when a regular
    file is in the way. *)
Definition mkdir (p : path) : M unit :=
  log (EvMkdir p) ;;
  s <- get_state ;;
  if existsb (fun q => is_file q s) (prefixes p) then raise (OSError "not a directory")
  else modify (fun s => set_dirs (prefixes p ++ dirs s) s).

(** [open(p, 'wb')]: the file is created or truncated on disk. *)
Definition open_wb (p : path) : M handle :=
  s <- get_state ;;
  if is_dir p s then raise (OSError "is a directory")
  else if negb (is_dir (dirname p) s) then raise (OSError "no such directory")
  else
    fun s =>
      let h := length (heap s) in
      (Ok h, add_event (EvOpen p h)
               (set_files ((p, []) :: files s) (set_heap (heap s ++ [new_file]) s))).

(** Leaving [with open(p, 'wb') as f]: what was written reaches the disk and
    the file object is closed, whether the body returned or raised. *)
Definition close_output (p : path) (h : handle) (s : state) : state :=
  match heap s !! h with
  | Some f =>
    add_event (EvClose h)
      (set_files ((p, f_data f) :: files s)
         (set_heap (<[h := File (f_data f) (f_pos f) true]> (heap s)) s))
  | None => s
  end.

Definition with_open_wb {A} (p : path) (body : handle -> M A) : M A :=
  f <- open_wb p ;;
  fun s => let '(r, s') := body f s in (r, close_output p f s').

(** The bytes of the regular file at [p], if there is one. *)
Definition read_disk (p : path) (s : state) : option bytes :=
  snd <$> find (fun '(q, _) => path_eqb p q) (files s).

Section Reader.

Context `{Collaborators}.

(** [MarReader.__init__(fileobj)] *)
Definition __init__ (fileobj : handle) : M unit :=
  f <- get_file fileobj ;;
  let '(r, f') := parse_stream f in
  put_file fileobj f' ;;
  match r with
  | Raise e => raise e
  | Ok md =>
    modify (set_self (Reader fileobj None md (mar_is_compressed md)))
  end.

(** [MarReader.decompress()] *)
Definition decompress : M handle :=
  log EvDecompress ;;
  s <- get_state ;;
  let md := mardata (self s) in
  let raw := _raw_fileobj (self s) in
  dst <- TemporaryFile ;;
  file_seek dst (data_offset md) ;;
  file_seek raw (data_offset md) ;;
  let stream :=
    pull raw (fun f =>
      xz_decompress_stream (takeexactly (file_iter block_size f) (data_length md))) in
  write_to_file stream dst ;;
  file_seek dst 0 ;;
  ret dst.

(** The property [MarReader.fileobj].  A file object is always true in a
    boolean context, so [not self._decompressed_fileobj] holds exactly when
    the field is still [None]. *)
Definition fileobj : M handle :=
  s <- get_state ;;
  if negb (is_compressed (self s)) then ret (_raw_fileobj (self s))
  else
    match _decompressed_fileobj (self s) with
    | Some h => ret h
    | None =>
      h <- decompress ;;
      modify (fun s' =>
        set_self (Reader (_raw_fileobj (self s')) (Some h)
                         (mardata (self s')) (is_compressed (self s'))) s') ;;
      ret h
    end.

(** [MarReader.__enter__()] returns the reader, [MarReader.__exit__()]
    is [pass]. *)
Definition __enter__ : M MarReader := s <- get_state ;; ret (self s).
Definition __exit__ : M unit := ret tt.

(** The filter [extract_entry] puts on the entry's stream. *)
Definition entry_filter (decompress : Decompression.t) (st : stream) : stream :=
  match decompress with
  | Decompression.auto => auto_decompress_stream st
  | Decompression.bz2 => bz2_decompress_stream st
  | Decompression.xz => st
  | Decompression.none => st
  end.

(** [MarReader.extract_entry(e, decompress)], drained.  The property
    [self.fileobj] is evaluated twice, as in the source. *)
Definition extract_entry (e : index_entry) (decompress : Decompression.t) : Gen :=
  fun s =>
    match (h <- fileobj ;; file_seek h (e_offset e) ;; fileobj) s with
    | (Raise x, s') => (([], Some x), s')
    | (Ok h, s') =>
      pull h (fun f =>
        entry_filter decompress (takeexactly (file_iter block_size f) (e_size e))) s'
    end.

(** The loop of [extract] over [self.mardata.index.entries]. *)
Fixpoint extract_entries (destdir : path) (decompress : Decompression.t)
    (entries : list index_entry) : M unit :=
  match entries with
  | [] => ret tt
  | e :: rest =>
    let name := e_name e in
    match safejoin destdir name with
    | Raise x => raise x
    | Ok entry_path =>
      let entry_dir := dirname entry_path in
      mkdir entry_dir ;;
      with_open_wb entry_path (fun f =>
        write_to_file (extract_entry e decompress) f) ;;
      extract_entries destdir decompress rest
    end
  end.

(** [MarReader.extract(destdir, decompress)] *)
Definition extract (destdir : path) (decompress : Decompression.t) : M unit :=
  s <- get_state ;;
  extract_entries destdir decompress (index_entries (mardata (self s))).

(** *** Signature verification *)

(** The first loop of [verify]: one verifier per signature record, in the
    order of the records. *)
Fixpoint build_verifiers (verify_key : Key) (l : list sig_entry)
    (verifiers : list verifier) : M (list verifier) :=
  match l with
  | [] => ret verifiers
  | sig :: rest =>
    if (algorithm_id sig =? SigningAlgo_SHA1)%N then
      log (EvMakeVerifier (algorithm_id sig)) ;;
      build_verifiers verify_key rest
        (verifiers ++ [make_verifier_v1 verify_key (signature sig)])
    else if (algorithm_id sig =? SigningAlgo_SHA384)%N then
      log (EvMakeVerifier (algorithm_id sig)) ;;
      build_verifiers verify_key rest
        (verifiers ++ [make_verifier_v2 verify_key (signature sig)])
    else raise (UnsupportedAlgorithm (algorithm_id sig))
  end.

(** [[v.update(block) for v in verifiers]], for every block in turn. *)
Definition update_all (verifiers : list verifier) (bs : list bytes) : list verifier :=
  foldl (fun vs block => map (fun v => v_update v block) vs) verifiers bs.

(** The last loop of [verify]: [for v in verifiers: try: v.verify() except
    InvalidSignature: return False] and [else: return True]. *)
Fixpoint finalize (i : nat) (verifiers : list verifier) : M bool :=
  match verifiers with
  | [] => ret true
  | v :: rest =>
    log (EvVerify i (v_verify v)) ;;
    match v_verify v with
    | Ok _ => finalize (S i) rest
    | Raise InvalidSignature => ret false
    | Raise e => raise e
    end
  end.

(** [MarReader.verify(verify_key)] *)
Definition verify (verify_key : Key) : M bool :=
  s <- get_state ;;
  match signatures (mardata (self s)) with
  | None => ret false
  | Some sh =>
    match sigs sh with
    | [] => ret false
    | _ =>
      verifiers <- build_verifiers verify_key (sigs sh) [] ;;
      (if length verifiers =? length (sigs sh) then ret tt
       else raise AssertionError) ;;
      h <- fileobj ;;
      fun s1 =>
        let '((bs, e), s2) := pull h (fun f => get_signature_data f (filesize sh)) s1 in
        match e with
        | Some x => (Raise x, s2)
        | None => finalize 0 (update_all verifiers bs) s2
        end
    end
  end.

End Reader.

(** * The vocabulary of the properties *)

(** ** What an operation may do to the state

    [step P s s']: between [s] and [s'] the disk was left alone and only
    events satisfying [P] were appended to the trace. *)
Definition step (P : event -> Prop) (s s' : state) : Prop :=
  files s' = files s /\ dirs s' = dirs s /\
  exists evs, trace s' = trace s ++ evs /\ Forall P evs.

(** The exceptions of stream and file-object operations. *)
Definition io_exn (e : exn) : Prop :=
  match e with
  | StreamError _ | ClosedFile _ | OtherError _ => True
  | _ => False
  end.

Definition safe {A} (P : event -> Prop) (m : M A) : Prop :=
  forall s, step P s (m s).2 /\ forall e, (m s).1 = Raise e -> io_exn e.

Definition gen_safe (P : event -> Prop) (g : Gen) : Prop :=
  forall s, step P s (g s).2 /\ forall e, (g s).1.2 = Some e -> io_exn e.

(** The events of the decompression cache. *)
Definition cache_event (ev : event) : Prop :=
  match ev with
  | EvTempfile _ | EvRead _ => True
  | _ => False
  end.

Definition io_event (ev : event) : Prop := ev = EvDecompress \/ cache_event ev.

(** ** What an operation leaves alone

    [keeps proj m]: running [m] does not change the part [proj] of the
    state.  The lemmas are for parts that depend neither on the heap nor on
    the trace. *)
Definition keeps {A X} (proj : state -> X) (m : M A) : Prop :=
  forall s, proj (m s).2 = proj s.

Definition gen_keeps {X} (proj : state -> X) (g : Gen) : Prop :=
  forall s, proj (g s).2 = proj s.

(** After an access that returned, the handle is the raw stream of an
    archive that is not compressed, or it is cached. *)
Definition settled (h : handle) (s : state) : Prop :=
  (is_compressed (self s) = false /\ _raw_fileobj (self s) = h)
  \/ (is_compressed (self s) = true /\ _decompressed_fileobj (self s) = Some h).

(** What the writes of [write_to_file] leave in a new file that was first
    positioned at [p]: nothing when nothing was written, otherwise a gap of
    [p] zero bytes and then the bytes written. *)
Definition spooled (p : nat) (c : bytes) : file :=
  File (match c with [] => [] | _ => replicate p x00 ++ c end) (length c + p) false.

Definition with_events (evs : list event) (s : state) : state :=
  State (self s) (heap s) (files s) (dirs s) (trace s ++ evs).

Definition is_make_verifier (ev : event) : Prop :=
  exists id, ev = EvMakeVerifier id.

Definition is_verify_event (ev : event) : Prop :=
  exists i r, ev = EvVerify i r.

(** The events that are not a verifier's report of an invalid signature. *)
Definition not_verdict (ev : event) : Prop :=
  forall j, ev <> EvVerify j (Raise InvalidSignature).

Definition is_decompress (ev : event) : bool :=
  match ev with EvDecompress => true | _ => false end.

(** How often [decompress] was entered. *)
Definition decompressions (tr : list event) : nat :=
  length (List.filter is_decompress tr).

(** The file object [h] was closed. *)
Definition released (h : handle) (s : state) : Prop :=
  exists f, heap s !! h = Some f /\ f_closed f = true.

Definition is_close (h : handle) (ev : event) : bool :=
  match ev with EvClose k => h =? k | _ => false end.

(** How often [h.close()] was called. *)
Definition closes (h : handle) (tr : list event) : nat :=
  length (List.filter (is_close h) tr).



Section Vocabulary.

Context `{Collaborators}.

(** The stream [decompress] drains: the XZ filter over exactly
  [data_length] bytes of the raw file from [data_offset]. *)
Definition archive_stream (md : mar) (f : file) : stream :=
xz_decompress_stream
  (takeexactly (file_iter block_size (f_seek (data_offset md) f)) (data_length md)).

(** The stream of an entry over the file behind [self.fileobj]. *)
Definition entry_stream (e : index_entry) (decompress : Decompression.t) (f : file)
: stream :=
entry_filter decompress
  (takeexactly (file_iter block_size (f_seek (e_offset e) f)) (e_size e)).

(** The algorithm ids [verify] has a verifier for. *)
Definition supported (id : N) : Prop :=
id = SigningAlgo_SHA1 \/ id = SigningAlgo_SHA384.

(** The verifier [verify] builds for a record with a supported id. *)
Definition make_verifier (verify_key : Key) (sig : sig_entry) : verifier :=
if (algorithm_id sig =? SigningAlgo_SHA1)%N
then make_verifier_v1 verify_key (signature sig)
else make_verifier_v2 verify_key (signature sig).

(** The scan of [verify] went through on [s] and fed the blocks [bs]:
  the verifiers are built, [self.fileobj] gives an open file, and
  [get_signature_data] runs to its end on it. *)
Definition scanned (s : state) (sh : sigs_header) (bs : list bytes) : Prop :=
exists h s1 f,
  fileobj (with_events (map (fun sig => EvMakeVerifier (algorithm_id sig)) (sigs sh)) s)
    = (Ok h, s1)
  /\ heap s1 !! h = Some f /\ f_closed f = false
  /\ ending (get_signature_data f (filesize sh)) = None
  /\ bs = blocks (get_signature_data f (filesize sh)).

End Vocabulary.

(** [n] successive reads of the property [fileobj], each on its own: an
    access that raises does not keep the caller from accessing again. *)
Fixpoint access_times `{Collaborators} (n : nat) (s : state) : list (res handle) * state :=
  match n with
  | 0 => ([], s)
  | S n' =>
    let '(r, s1) := fileobj s in
    let '(rs, s2) := access_times n' s1 in
    (r :: rs, s2)
  end.

(** [with MarReader(...) as m: body]: [__exit__] runs whether the body
    returns or raises; it returns [None], so an exception of the body goes
    on to the caller. *)
Definition with_reader `{Collaborators} {A} (body : MarReader -> M A) : M A :=
  m <- __enter__ ;;
  fun s =>
    let '(r, s1) := body m s in
    let '(_, s2) := __exit__ s1 in
    (r, s2).



(** [kept n s s']: between [s] and [s'] the heap only grew; every file
    object with a handle below [n] has the bytes it had and is open or
    closed as it was (only its position may differ); and [close()] was
    called on none of them. *)
Definition kept (n : nat) (s s' : state) : Prop :=
  length (heap s) <= length (heap s')
  /\ (forall (k : handle) f, k < n -> heap s !! k = Some f ->
        exists f', heap s' !! k = Some f'
                   /\ f_data f' = f_data f /\ f_closed f' = f_closed f)
  /\ exists evs, trace s' = trace s ++ evs
                 /\ forall k : handle, EvClose k ∈ evs -> n <= k.

(** Running [m] where the handles below [n] are taken keeps those files. *)
Definition keeps_files {A} (n : nat) (m : M A) : Prop :=
  forall s, n <= length (heap s) -> kept n s (m s).2.

Definition gen_keeps_files (n : nat) (g : Gen) : Prop :=
  forall s, n <= length (heap s) -> kept n s (g s).2.

(** The file system as the reader sees it: regular files and directories. *)
Definition disk (s : state) : list (path * bytes) * list path := (files s, dirs s).

(** The handles the reader holds refer to file objects of the heap. *)
Definition allocated (s : state) : Prop :=
  _raw_fileobj (self s) < length (heap s)
  /\ forall h, _decompressed_fileobj (self s) = Some h -> h < length (heap s).


(** One call of a method of the reader, by the state it leaves, whether it
    returns or raises. *)
Inductive reader_call `{Collaborators} (s : state) : state -> Prop :=
| call_fileobj : reader_call s (fileobj s).2
| call_decompress : reader_call s (decompress s).2
| call_enter : reader_call s (__enter__ s).2
| call_exit : reader_call s (__exit__ s).2
| call_extract_entry e m : reader_call s (extract_entry e m s).2
| call_extract destdir m : reader_call s (extract destdir m s).2
| call_verify verify_key : reader_call s (verify verify_key s).2.

(** Any sequence of such calls. *)
Inductive reader_calls `{Collaborators} : state -> state -> Prop :=
| calls_done s : reader_calls s s
| calls_then s s1 s2 : reader_call s s1 -> reader_calls s1 s2 -> reader_calls s s2.

(** ** A small concrete instance

    Toy collaborators on which the definitions can be run: blocks of four
    bytes; an "xz" filter that expects the magic byte [X] and hands on what
    follows it; a "bz2" filter with magic [B]; verifiers that accept a
    signature when it is the key followed by the signed bytes. *)
Module Toy.

Definition strip_magic (magic : byte) (msg : string) (st : stream) : stream :=
  match items st with
  | [] => st
  | (b, q) :: rest =>
    match b with
    | c :: b' =>
      if Byte.eqb c magic then Stream ((b', q) :: rest) (ending st) (final_pos st)
      else Stream [] (Some (CodecError msg)) q
    | [] => Stream [] (Some (CodecError msg)) q
    end
  end.

Definition sniff (st : stream) : stream :=
  match items st with
  | (c :: _, _) :: _ =>
    if Byte.eqb c "B"%byte then strip_magic "B"%byte "bz2" st else st
  | _ => st
  end.

Fixpoint bytes_eqb (x y : bytes) : bool :=
  match x, y with
  | [], [] => true
  | c :: x', d :: y' => Byte.eqb c d && bytes_eqb x' y'
  | _, _ => false
  end.

Record toy_verifier := ToyVerifier {
  tv_expected : bytes;   (* what the signature says the data is *)
  tv_seen : bytes        (* the data fed so far *)
}.

#[export] Instance collaborators : Collaborators := {|
  block_size := 4;
  xz_decompress_stream := strip_magic "X"%byte "xz";
  bz2_decompress_stream := strip_magic "B"%byte "bz2";
  auto_decompress_stream := sniff;
  get_signature_data := fun f n => takeexactly (file_iter 4 (f_seek 0 f)) n;
  parse_stream := fun f => (Raise (ParseError "not a MAR file"), f);
  SigningAlgo_SHA1 := 1%N;
  SigningAlgo_SHA384 := 2%N;
  Key := bytes;
  verifier := toy_verifier;
  make_verifier_v1 := fun key sig => ToyVerifier sig key;
  make_verifier_v2 := fun key sig => ToyVerifier sig (rev key);
  v_update := fun v b => ToyVerifier (tv_expected v) (tv_seen v ++ b);
  v_verify := fun v =>
    if bytes_eqb (tv_expected v) (tv_seen v) then Ok tt else Raise InvalidSignature
|}.

Definition b (s : string) : bytes := list_byte_of_string s.

(** An uncompressed archive of sixteen bytes with two entries and one
    signature over the first eight bytes. *)
Definition plain_mar : mar :=
  Mar 8 8 [IndexEntry "a.txt" 8 3; IndexEntry "dir/b.bin" 11 5]
      (Some (SigsHeader 8 [SigEntry 1 (b "k1MAR1head")])) false.

Definition plain_state : state :=
  State (Reader 0 None plain_mar false)
        [File (b "MAR1headabcBwxyz") 0 false] [] [[]] [].

(** A compressed archive: the data section of seven bytes starts at
    offset 4 and carries the magic byte. *)
Definition packed_mar : mar :=
  Mar 4 7 [IndexEntry "a.txt" 4 3; IndexEntry "../evil" 7 3] None true.

Definition packed_state : state :=
  State (Reader 0 None packed_mar true)
        [File (b "MAR1Xabcdef....") 0 false] [] [[]] [].

(** The same archive with a damaged data section. *)
Definition damaged_state : state :=
  State (Reader 0 None packed_mar true)
        [File (b "MAR1?abcdef....") 0 false] [] [[]] [].

(** The plain archive with a second signature that does not match. *)
Definition two_sigs_state : state :=
  State (Reader 0 None
           (Mar 8 8 [IndexEntry "a.txt" 8 3]
              (Some (SigsHeader 8 [SigEntry 1 (b "k1MAR1head"); SigEntry 2 (b "bad")]))
              false)
           false)
        [File (b "MAR1headabcBwxyz") 0 false] [] [[]] [].

(** The plain archive with a signature of an algorithm id that is neither
    SHA1 nor SHA384. *)
Definition unknown_algo_header : sigs_header :=
  SigsHeader 8 [SigEntry 1 (b "k1MAR1head"); SigEntry 7 (b "?")].

Definition unknown_algo_state : state :=
  State (Reader 0 None
           (Mar 8 8 [IndexEntry "a.txt" 8 3] (Some unknown_algo_header) false)
           false)
        [File (b "MAR1headabcBwxyz") 0 false] [] [[]] [].

(** The compressed archive with one signature over the first ten bytes of
    the decompressed stream: the gap of four bytes and [abcdef]. *)
Definition packed_signed_state : state :=
  State (Reader 0 None
           (Mar 4 7 [IndexEntry "a.txt" 4 3]
              (Some (SigsHeader 10
                       [SigEntry 1 (b "k1" ++ replicate 4 x00 ++ b "abcdef")]))
              true)
           true)
        [File (b "MAR1Xabcdef....") 0 false] [] [[]] [].

(** A parser for the toy archives: it accepts what starts with the magic
    bytes, reads to the end and gives the header of the plain archive. *)
Definition parse_toy (f : file) : res mar * file :=
  match f_data f with
  | "M"%byte :: "A"%byte :: "R"%byte :: "1"%byte :: _ =>
    (Ok plain_mar, f_seek (length (f_data f)) f)
  | _ => (Raise (ParseError "not a MAR file"), f)
  end.

(** The same collaborators with that parser. *)
Definition parsing : Collaborators := {|
  block_size := 4;
  xz_decompress_stream := strip_magic "X"%byte "xz";
  bz2_decompress_stream := strip_magic "B"%byte "bz2";
  auto_decompress_stream := sniff;
  get_signature_data := fun f n => takeexactly (file_iter 4 (f_seek 0 f)) n;
  parse_stream := parse_toy;
  SigningAlgo_SHA1 := 1%N;
  SigningAlgo_SHA384 := 2%N;
  Key := bytes;
  verifier := toy_verifier;
  make_verifier_v1 := fun key sig => ToyVerifier sig key;
  make_verifier_v2 := fun key sig => ToyVerifier sig (rev key);
  v_update := fun v b => ToyVerifier (tv_expected v) (tv_seen v ++ b);
  v_verify := fun v =>
    if bytes_eqb (tv_expected v) (tv_seen v) then Ok tt else Raise InvalidSignature
|}.

End Toy.

(** * Properties *)

(** ** Streams over a file *)

Lemma take_drop_length_take {A} (n : nat) (l : list A) :
  take n l ++ drop (length (take n l)) l = l.
Proof.
  rewrite length_take.
  destruct (Nat.le_gt_cases n (length l)).
  - rewrite Nat.min_l by done. apply take_drop.
  - rewrite Nat.min_r by lia. rewrite take_ge, drop_ge by lia. apply app_nil_r.
Qed.

Section StreamFacts.

Variable bs : nat.
Hypothesis bs_pos : 0 < bs.

(** The blocks [file_iter] reads are the rest of the file, cut in
    pieces. *)
Lemma file_iter_from_content (fuel : nat) (f : file) :
  length (drop (f_pos f) (f_data f)) <= fuel ->
  concat (file_iter_from bs fuel f).*1 = drop (f_pos f) (f_data f).
Proof.
  revert f. induction fuel as [|fuel IH]; intros f Hlen.
  - simpl. destruct (drop (f_pos f) (f_data f)); simpl in *; [done | lia].
  - cbn [file_iter_from]. unfold f_read.
    set (r := drop (f_pos f) (f_data f)) in *.
    pose proof (take_drop_length_take bs r) as Hr.
    pose proof (length_take_le r bs) as Hn.
    destruct (take bs r) as [|c b'] eqn:Hb.
    + simpl in Hr. rewrite <- Hr in Hb. simpl.
      destruct r; [done|]. destruct bs; [lia | discriminate].
    + set (f' := File _ _ _).
      cbn [fmap list_fmap fst concat]. rewrite IH.
      * subst f'. cbn [f_pos f_data].
        rewrite <- drop_drop. fold r. exact Hr.
      * subst f'. cbn [f_pos f_data].
        rewrite <- drop_drop. fold r. rewrite length_drop.
        simpl. simpl in Hn. lia.
Qed.

Lemma file_iter_content (f : file) :
  content (file_iter bs f) = drop (f_pos f) (f_data f).
Proof.
  unfold content, blocks, file_iter; simpl.
  apply file_iter_from_content. rewrite length_drop. lia.
Qed.

End StreamFacts.

(** What the loop of [takeexactly] yields, whatever the blocks are. *)
Lemma takeexactly_loop_spec (its : list (bytes * nat)) (size total : nat) :
  total <= size ->
  let c := concat its.*1 in
  let '(o, t, brk) := takeexactly_loop its size total in
  concat o.*1 = take (size - total) c
  /\ t = total + length (take (size - total) c)
  /\ (brk = None -> its = [] \/ total + length c < size)
  /\ (is_Some brk -> size <= total + length c).
Proof.
  revert total. induction its as [|[b q] rest IH]; intros total Hle.
  - simpl. rewrite take_nil.
    repeat split; [simpl; lia | auto | by intros [? ?]].
  - cbn [takeexactly_loop]. rewrite fmap_cons. cbn [fst concat].
    destruct (Nat.leb_spec size (total + length (take (size - total) b))) as [Hge|Hlt].
    + rewrite length_take in Hge.
      assert (size - total <= length b) as Hb by lia.
      rewrite take_app_le by done.
      repeat split; [|done|intros _; rewrite length_app; lia].
      destruct (take (size - total) b) eqn:E; simpl; [done | by rewrite app_nil_r].
    + rewrite length_take in Hlt.
      assert (length b < size - total) as Hb by lia.
      rewrite (take_ge b) by lia.
      specialize (IH (total + length b) ltac:(lia)).
      destruct (takeexactly_loop rest size (total + length b)) as [[o t] brk].
      destruct IH as (Ho & Ht & Hbrk & Hsome).
      rewrite take_app_ge by lia.
      replace (size - total - length b) with (size - (total + length b)) by lia.
      repeat split.
      * rewrite fmap_app, concat_app, Ho.
        f_equal. destruct b; simpl; [done | by rewrite app_nil_r].
      * rewrite Ht, length_app. lia.
      * intros ->. right. rewrite length_app.
        destruct (Hbrk eq_refl) as [-> | ?]; simpl; lia.
      * intros Hs. specialize (Hsome Hs). rewrite length_app. lia.
Qed.

(** [takeexactly] on a source that does not fail: the bytes yielded are the
    first [size] bytes of the source, and the stream fails exactly when the
    source is shorter than that. *)
Lemma takeexactly_spec (src : stream) (size : nat) :
  ending src = None ->
  content (takeexactly src size) = take size (content src)
  /\ ending (takeexactly src size) =
       if length (content src) <? size
       then Some (NotEnoughData (length (content src)) size) else None.
Proof.
  intros Hend. unfold takeexactly, content, blocks.
  pose proof (takeexactly_loop_spec (items src) size 0 ltac:(lia)) as Hspec.
  cbv zeta in Hspec.
  destruct (takeexactly_loop (items src) size 0) as [[o t] brk].
  rewrite Nat.sub_0_r in Hspec. destruct Hspec as (Ho & Ht & Hbrk & Hsome).
  rewrite length_take in Ht.
  destruct brk as [q|]; simpl.
  - split; [done|].
    specialize (Hsome ltac:(by eexists)).
    destruct (Nat.ltb_spec (length (concat (items src).*1)) size); [lia | done].
  - rewrite Hend. simpl. split; [done|].
    assert (t = length (concat (items src).*1)) as ->; [|done].
    destruct (Hbrk eq_refl) as [Hnil | Hlt]; [|lia].
    rewrite Hnil in *. simpl in *. lia.
Qed.

(** The stream [extract_entry] and [decompress] build over a file: exactly
    [size] bytes from the current position, or a length mismatch. *)
Lemma take_from_file_spec (bs : nat) (f : file) (size : nat) :
  0 < bs ->
  let avail := drop (f_pos f) (f_data f) in
  content (takeexactly (file_iter bs f) size) = take size avail
  /\ ending (takeexactly (file_iter bs f) size) =
       if length avail <? size
       then Some (NotEnoughData (length avail) size) else None.
Proof.
  intros Hbs avail.
  destruct (takeexactly_spec (file_iter bs f) size eq_refl) as [Hc He].
  rewrite file_iter_content in Hc, He by done. done.
Qed.

Lemma step_refl P s : step P s s.
Proof. repeat split. exists []. by rewrite app_nil_r. Qed.

Lemma step_trans P s1 s2 s3 : step P s1 s2 -> step P s2 s3 -> step P s1 s3.
Proof.
  intros (Hf1 & Hd1 & evs1 & Ht1 & HP1) (Hf2 & Hd2 & evs2 & Ht2 & HP2).
  repeat split; [congruence | congruence |].
  exists (evs1 ++ evs2). split.
  - by rewrite Ht2, Ht1, app_assoc.
  - by apply Forall_app.
Qed.

Lemma step_mono (P Q : event -> Prop) s s' :
  (forall ev, P ev -> Q ev) -> step P s s' -> step Q s s'.
Proof.
  intros HPQ (Hf & Hd & evs & Ht & HP). repeat split; [done..|].
  exists evs. split; [done|]. eapply Forall_impl; eauto.
Qed.

Lemma step_add_event (P : event -> Prop) ev s : P ev -> step P s (add_event ev s).
Proof. intros HP. repeat split. exists [ev]. split; [done | by constructor]. Qed.

Lemma step_set_heap P hp s : step P s (set_heap hp s).
Proof. repeat split. exists []. by rewrite app_nil_r. Qed.

Lemma step_set_self P r s : step P s (set_self r s).
Proof. repeat split. exists []. by rewrite app_nil_r. Qed.

Lemma safe_mono {A} (P Q : event -> Prop) (m : M A) :
  (forall ev, P ev -> Q ev) -> safe P m -> safe Q m.
Proof. intros HPQ Hm s. destruct (Hm s). split; [by eapply step_mono|done]. Qed.

Lemma safe_ret {A} P (a : A) : safe P (ret a).
Proof. intros s. split; [apply step_refl | discriminate]. Qed.

Lemma safe_raise {A} P e : io_exn e -> safe P (@raise A e).
Proof. intros He s. split; [apply step_refl | by intros ? [= <-]]. Qed.

Lemma safe_bind {A B} P (m : M A) (k : A -> M B) :
  safe P m -> (forall a, safe P (k a)) -> safe P (bind m k).
Proof.
  intros Hm Hk s. unfold bind. specialize (Hm s).
  destruct (m s) as [[a|e] s']; simpl in *.
  - destruct Hm as [Hs _]. destruct (Hk a s') as [Hs' He].
    split; [by eapply step_trans | done].
  - destruct Hm as [Hs He]. split; [done | by intros ? [= <-]; apply He].
Qed.

Lemma safe_get_state P : safe P get_state.
Proof. intros s. split; [apply step_refl | discriminate]. Qed.

Lemma safe_log (P : event -> Prop) ev : P ev -> safe P (log ev).
Proof. intros HP s. split; [by apply step_add_event | discriminate]. Qed.

Lemma safe_get_file P h : safe P (get_file h).
Proof.
  intros s. unfold get_file.
  destruct (heap s !! h) as [f|]; [destruct (f_closed f)|]; simpl;
    (split; [apply step_refl | by intros ? [= <-]]).
Qed.

Lemma safe_put_file P h f : safe P (put_file h f).
Proof. intros s. split; [apply step_set_heap | discriminate]. Qed.

Lemma safe_file_seek P h p : safe P (file_seek h p).
Proof.
  apply safe_bind; [apply safe_get_file | intros; apply safe_put_file].
Qed.

Lemma safe_TemporaryFile (P : event -> Prop) :
  (forall h, P (EvTempfile h)) -> safe P TemporaryFile.
Proof.
  intros HP s. split; [|discriminate]. simpl.
  eapply step_trans; [apply step_set_heap | by apply step_add_event].
Qed.

Lemma gen_safe_pull (P : event -> Prop) h mk :
  P (EvRead h) -> gen_safe P (pull h mk).
Proof.
  intros HP s. unfold pull.
  destruct (safe_get_file P h s) as [Hs He].
  destruct (get_file h s) as [[f|e] s']; simpl in *.
  - split.
    + eapply step_trans; [exact Hs|].
      eapply step_trans; [apply step_set_heap | by apply step_add_event].
    + intros e. destruct (ending (mk f)); [by intros [= <-] | discriminate].
  - split; [done | by intros ? [= <-]; apply He].
Qed.

Lemma safe_write_to_file P src dst :
  gen_safe P src -> safe P (write_to_file src dst).
Proof.
  intros Hsrc. apply safe_bind; [apply safe_get_file|].
  intros f s. specialize (Hsrc s).
  destruct (src s) as [[bl e] s']; simpl in *. destruct Hsrc as [Hs He].
  destruct e as [x|]; simpl.
  - split; [eapply step_trans; [exact Hs | apply step_set_heap]|].
    intros ? [= <-]. by apply He.
  - split; [eapply step_trans; [exact Hs | apply step_set_heap] | discriminate].
Qed.

Section ReaderSafe.

Context `{Collaborators}.

Lemma safe_decompress_body P :
  (forall ev, cache_event ev -> P ev) -> P EvDecompress -> safe P decompress.
Proof.
  intros HP HD. unfold decompress.
  apply safe_bind; [by apply safe_log|]. intros _.
  apply safe_bind; [apply safe_get_state|]. intros s0.
  apply safe_bind; [apply safe_TemporaryFile; intros; by apply HP|]. intros dst.
  apply safe_bind; [apply safe_file_seek|]. intros _.
  apply safe_bind; [apply safe_file_seek|]. intros _.
  apply safe_bind; [apply safe_write_to_file, gen_safe_pull; by apply HP|]. intros _.
  apply safe_bind; [apply safe_file_seek|]. intros _.
  apply safe_ret.
Qed.

Lemma safe_fileobj : safe io_event fileobj.
Proof.
  unfold fileobj.
  apply safe_bind; [apply safe_get_state|]. intros s0.
  destruct (negb _); [apply safe_ret|].
  destruct (_decompressed_fileobj _); [apply safe_ret|].
  apply safe_bind; [apply safe_decompress_body; [by right | by left]|]. intros h.
  apply safe_bind; [|intros; apply safe_ret].
  intros s. split; [apply step_set_self | discriminate].
Qed.

Lemma gen_safe_extract_entry e d : gen_safe io_event (extract_entry e d).
Proof.
  intros s. unfold extract_entry.
  assert (safe io_event (h <- fileobj ;; file_seek h (e_offset e) ;; fileobj)) as Hpre.
  { apply safe_bind; [apply safe_fileobj|]. intros h.
    apply safe_bind; [apply safe_file_seek|]. intros _. apply safe_fileobj. }
  specialize (Hpre s).
  destruct ((h <- fileobj ;; file_seek h (e_offset e) ;; fileobj) s) as [[h|x] s'];
    simpl in *; destruct Hpre as [Hs He].
  - match goal with |- context [pull ?h ?mk s'] =>
      destruct (gen_safe_pull io_event h mk ltac:(by right) s') as [Hs' He'] end.
    split; [by eapply step_trans | done].
  - split; [done | by intros ? [= <-]; apply He].
Qed.

End ReaderSafe.

Section Keeps.

Context {X : Type} (proj : state -> X).
Hypothesis proj_heap : forall hp s, proj (set_heap hp s) = proj s.
Hypothesis proj_event : forall ev s, proj (add_event ev s) = proj s.

Lemma keeps_ret {A} (a : A) : keeps proj (ret a).
Proof. done. Qed.

Lemma keeps_raise {A} e : keeps proj (@raise A e).
Proof. done. Qed.

Lemma keeps_bind {A B} (m : M A) (k : A -> M B) :
  keeps proj m -> (forall a, keeps proj (k a)) -> keeps proj (bind m k).
Proof.
  intros Hm Hk s. unfold bind. specialize (Hm s).
  destruct (m s) as [[a|e] s']; simpl in *; [|done].
  by rewrite Hk.
Qed.

Lemma keeps_get_state : keeps proj get_state.
Proof. done. Qed.

Lemma keeps_log ev : keeps proj (log ev).
Proof. intros s. apply proj_event. Qed.

Lemma keeps_get_file h : keeps proj (get_file h).
Proof.
  intros s. unfold get_file.
  by destruct (heap s !! h) as [f|]; [destruct (f_closed f)|].
Qed.

Lemma keeps_put_file h f : keeps proj (put_file h f).
Proof. intros s. apply proj_heap. Qed.

Lemma keeps_file_seek h p : keeps proj (file_seek h p).
Proof. apply keeps_bind; [apply keeps_get_file | intros; apply keeps_put_file]. Qed.

Lemma keeps_TemporaryFile : keeps proj TemporaryFile.
Proof. intros s. simpl. by rewrite proj_event, proj_heap. Qed.

Lemma gen_keeps_pull h mk : gen_keeps proj (pull h mk).
Proof.
  intros s. unfold pull. pose proof (keeps_get_file h s) as Hg.
  destruct (get_file h s) as [[f|e] s']; simpl in *; [|done].
  by rewrite proj_event, proj_heap.
Qed.

Lemma keeps_write_to_file src dst :
  gen_keeps proj src -> keeps proj (write_to_file src dst).
Proof.
  intros Hsrc. apply keeps_bind; [apply keeps_get_file|].
  intros f s. specialize (Hsrc s).
  destruct (src s) as [[bl e] s']; simpl in *.
  destruct e; simpl; by rewrite proj_heap.
Qed.

End Keeps.

Section ReaderKeeps.

Context `{Collaborators}.

Lemma keeps_decompress {X} (proj : state -> X) :
  (forall hp s, proj (set_heap hp s) = proj s) ->
  (forall ev s, proj (add_event ev s) = proj s) ->
  keeps proj decompress.
Proof.
  intros Hh He. unfold decompress.
  apply keeps_bind; [by apply keeps_log|]. intros _.
  apply keeps_bind; [apply keeps_get_state|]. intros s0.
  apply keeps_bind; [by apply keeps_TemporaryFile|]. intros dst.
  apply keeps_bind; [by apply keeps_file_seek|]. intros _.
  apply keeps_bind; [by apply keeps_file_seek|]. intros _.
  apply keeps_bind; [by apply keeps_write_to_file, gen_keeps_pull|]. intros _.
  apply keeps_bind; [by apply keeps_file_seek|]. intros _.
  apply keeps_ret.
Qed.

Lemma decompress_self s : self (decompress s).2 = self s.
Proof. by apply (keeps_decompress self). Qed.

(** *** The three cases of the property [fileobj] *)

Lemma fileobj_uncompressed s :
  is_compressed (self s) = false ->
  fileobj s = (Ok (_raw_fileobj (self s)), s).
Proof. intros Hc. unfold fileobj, bind, get_state. by rewrite Hc. Qed.

Lemma fileobj_cached s h :
  is_compressed (self s) = true ->
  _decompressed_fileobj (self s) = Some h ->
  fileobj s = (Ok h, s).
Proof. intros Hc Hd. unfold fileobj, bind, get_state. by rewrite Hc, Hd. Qed.

Lemma fileobj_fill s :
  is_compressed (self s) = true ->
  _decompressed_fileobj (self s) = None ->
  fileobj s =
    match decompress s with
    | (Ok h, s') =>
      (Ok h, set_self (Reader (_raw_fileobj (self s)) (Some h)
                              (mardata (self s)) true) s')
    | (Raise e, s') => (Raise e, s')
    end.
Proof.
  intros Hc Hd. unfold fileobj, bind at 1, get_state. rewrite Hc, Hd. simpl.
  unfold bind, modify, ret. pose proof (decompress_self s) as Hs.
  destruct (decompress s) as [[h|e] s']; simpl in *; [|done].
  by rewrite Hs, Hc.
Qed.

Lemma fileobj_settled s h s' :
  fileobj s = (Ok h, s') -> settled h s'.
Proof.
  destruct (is_compressed (self s)) eqn:Hc.
  - destruct (_decompressed_fileobj (self s)) as [h0|] eqn:Hd.
    + rewrite (fileobj_cached s h0) by done. intros [= <- <-]. by right.
    + rewrite fileobj_fill by done.
      destruct (decompress s) as [[h1|e] s1]; [|done].
      intros [= <- <-]. by right.
  - rewrite fileobj_uncompressed by done. intros [= <- <-]. by left.
Qed.

Lemma settled_fileobj s h : settled h s -> fileobj s = (Ok h, s).
Proof.
  intros [[Hc <-] | [Hc Hd]];
    [by apply fileobj_uncompressed | by apply fileobj_cached].
Qed.

Lemma settled_set_heap h hp s : settled h s -> settled h (set_heap hp s).
Proof. done. Qed.

Lemma settled_add_event h ev s : settled h s -> settled h (add_event ev s).
Proof. done. Qed.

End ReaderKeeps.

(** ** Running the primitives *)

Lemma bind_ok {A B} (m : M A) (k : A -> M B) s a s' :
  m s = (Ok a, s') -> bind m k s = k a s'.
Proof. intros Hm. unfold bind. by rewrite Hm. Qed.

Lemma bind_raise {A B} (m : M A) (k : A -> M B) s e s' :
  m s = (Raise e, s') -> bind m k s = (Raise e, s').
Proof. intros Hm. unfold bind. by rewrite Hm. Qed.

Lemma get_file_ok s h f :
  heap s !! h = Some f -> f_closed f = false -> get_file h s = (Ok f, s).
Proof. intros Hh Hc. unfold get_file. by rewrite Hh, Hc. Qed.

Lemma file_seek_ok s h f p :
  heap s !! h = Some f -> f_closed f = false ->
  file_seek h p s = (Ok tt, set_heap (<[h := f_seek p f]> (heap s)) s).
Proof.
  intros Hh Hc. unfold file_seek.
  by rewrite (bind_ok _ _ _ _ _ (get_file_ok s h f Hh Hc)).
Qed.

Lemma pull_ok s h f mk :
  heap s !! h = Some f -> f_closed f = false ->
  pull h mk s =
    ((blocks (mk f), StreamError <$> ending (mk f)),
     add_event (EvRead h) (set_heap (<[h := f_seek (final_pos (mk f)) f]> (heap s)) s)).
Proof. intros Hh Hc. unfold pull. by rewrite (get_file_ok s h f Hh Hc). Qed.

Lemma heap_lookup_new (hp : list file) (x : file) :
  (hp ++ [x]) !! length hp = Some x.
Proof. by rewrite lookup_app_r, Nat.sub_diag. Qed.

Lemma heap_insert_new (hp : list file) (x y : file) :
  <[length hp := y]> (hp ++ [x]) = hp ++ [y].
Proof. by rewrite insert_app_r_alt, Nat.sub_diag. Qed.

Lemma heap_lookup_old (hp : list file) (x : file) h f :
  hp !! h = Some f -> (hp ++ [x]) !! h = Some f.
Proof. intros Hh. by apply lookup_app_l_Some. Qed.

Lemma heap_insert_old (hp : list file) (x g : file) h f :
  hp !! h = Some f -> <[h := g]> (hp ++ [x]) = <[h := g]> hp ++ [x].
Proof. intros Hh. apply insert_app_l. by eapply lookup_lt_Some. Qed.

Lemma f_write_spooled p c b : f_write b (spooled p c) = spooled p (c ++ b).
Proof.
  destruct b as [|x b]; [by rewrite app_nil_r|].
  unfold f_write, spooled. cbn [f_data f_pos f_closed].
  destruct c as [|y c].
  - cbn [length app]. rewrite Nat.sub_0_r.
    rewrite take_ge by (rewrite length_replicate; lia).
    rewrite drop_nil, app_nil_r. f_equal. lia.
  - rewrite length_app, length_replicate.
    replace (length (y :: c) + p - (p + length (y :: c))) with 0 by lia.
    rewrite app_nil_r, take_ge by (rewrite length_app, length_replicate; lia).
    rewrite drop_ge by (rewrite length_app, length_replicate; lia).
    rewrite app_nil_r, <- app_assoc, length_app.
    simpl. f_equal. lia.
Qed.

Lemma write_blocks_spooled p c (bl : list bytes) :
  foldl (fun f b => f_write b f) (spooled p c) bl = spooled p (c ++ concat bl).
Proof.
  revert c. induction bl as [|b bl IH]; intros c; simpl.
  - by rewrite app_nil_r.
  - by rewrite f_write_spooled, IH, app_assoc.
Qed.

Lemma heap_lookup_new' (hp : list file) (n : nat) (x : file) :
  length hp = n -> (hp ++ [x]) !! n = Some x.
Proof. intros <-. apply heap_lookup_new. Qed.

Lemma heap_insert_new' (hp : list file) (n : nat) (x y : file) :
  length hp = n -> <[n := y]> (hp ++ [x]) = hp ++ [y].
Proof. intros <-. apply heap_insert_new. Qed.

Section DecompressSpec.

Context `{Collaborators}.

(** [decompress], run on a reader whose raw stream is open. *)
Lemma decompress_spec s f :
  let md := mardata (self s) in
  let raw := _raw_fileobj (self s) in
  let st := archive_stream md f in
  let n := length (heap s) in
  heap s !! raw = Some f -> f_closed f = false ->
  decompress s =
    (match ending st with
     | None => Ok n
     | Some e => Raise (StreamError e)
     end,
     State (self s)
       (<[raw := f_seek (final_pos st) f]> (heap s)
          ++ [match ending st with
              | None => f_seek 0 (spooled (data_offset md) (content st))
              | Some _ => spooled (data_offset md) (content st)
              end])
       (files s) (dirs s)
       (trace s ++ [EvDecompress; EvTempfile n; EvRead raw])).
Proof.
  intros md raw st n Hraw Hopen.
  destruct s as [r hp fl ds tr]. simpl in *.
  unfold decompress.
  unfold bind at 1. unfold log, modify.
  unfold bind at 1. unfold get_state.
  unfold bind at 1. unfold TemporaryFile.
  cbv [set_heap add_event self heap files dirs trace].
  erewrite bind_ok; [|apply file_seek_ok; [apply heap_lookup_new | done]].
  cbv [set_heap add_event self heap files dirs trace].
  rewrite heap_insert_new.
  erewrite bind_ok;
    [|eapply file_seek_ok; [by apply heap_lookup_old | done]].
  cbv [set_heap add_event self heap files dirs trace].
  erewrite heap_insert_old by done.
  unfold write_to_file. unfold bind at 1.
  erewrite bind_ok;
    [|apply get_file_ok;
      [cbn [heap]; apply heap_lookup_new'; apply length_insert | done]].
  erewrite pull_ok;
    [|cbn [heap]; apply heap_lookup_old, list_lookup_insert_eq;
      by eapply lookup_lt_Some | done].
  cbv [set_heap add_event self heap files dirs trace].
  change (xz_decompress_stream _) with st.
  change (f_seek (data_offset (mardata r)) new_file)
    with (spooled (data_offset md) []).
  rewrite write_blocks_spooled, app_nil_l. fold (content st).
  erewrite heap_insert_old
    by (apply list_lookup_insert_eq; by eapply lookup_lt_Some).
  rewrite list_insert_insert_eq.
  change (f_seek (final_pos st) (f_seek _ f)) with (f_seek (final_pos st) f).
  rewrite (heap_insert_new' _ (length hp)) by apply length_insert.
  rewrite <- !app_assoc. cbn [app].
  destruct (ending st) as [e|]; cbn [fmap option_fmap option_map]; [done|].
  erewrite bind_ok;
    [|apply file_seek_ok;
      [cbn [heap]; apply heap_lookup_new'; apply length_insert | done]].
  cbv [set_heap add_event self heap files dirs trace ret].
  by rewrite (heap_insert_new' _ (length hp)) by apply length_insert.
Qed.

End DecompressSpec.

(** ** Signature verification *)

Section VerifyFacts.

Context `{Collaborators}.

Lemma with_events_nil s : with_events [] s = s.
Proof. destruct s. unfold with_events. simpl. by rewrite app_nil_r. Qed.

Lemma with_events_app evs1 evs2 s :
  with_events evs2 (with_events evs1 s) = with_events (evs1 ++ evs2) s.
Proof. unfold with_events. simpl. by rewrite app_assoc. Qed.

Lemma add_event_with_events ev s : add_event ev s = with_events [ev] s.
Proof. done. Qed.

(** All records supported: one verifier each, in order, and nothing else
    happens. *)
Lemma build_verifiers_supported key l acc s :
  Forall (fun sig => supported (algorithm_id sig)) l ->
  build_verifiers key l acc s =
    (Ok (acc ++ map (make_verifier key) l),
     with_events (map (fun sig => EvMakeVerifier (algorithm_id sig)) l) s).
Proof.
  intros Hall. revert acc s.
  induction Hall as [|sig l Hsig Hall IH]; intros acc s.
  - simpl. by rewrite app_nil_r, with_events_nil.
  - cbn [build_verifiers map]. unfold make_verifier at 1.
    destruct (N.eqb_spec (algorithm_id sig) SigningAlgo_SHA1) as [E1|E1].
    + unfold bind, log, modify. rewrite IH, add_event_with_events.
      by rewrite with_events_app, <- app_assoc.
    + destruct (N.eqb_spec (algorithm_id sig) SigningAlgo_SHA384) as [E2|E2].
      * unfold bind, log, modify. rewrite IH, add_event_with_events.
        by rewrite with_events_app, <- app_assoc.
      * by destruct Hsig.
Qed.

(** Some record not supported: the first such record ends the loop with
    the error, after verifiers were made for the records before it. *)
Lemma build_verifiers_unsupported key l acc s :
  Exists (fun sig => ~ supported (algorithm_id sig)) l ->
  exists sig evs,
    sig ∈ l /\ ~ supported (algorithm_id sig)
    /\ build_verifiers key l acc s =
         (Raise (UnsupportedAlgorithm (algorithm_id sig)), with_events evs s)
    /\ Forall is_make_verifier evs.
Proof.
  revert acc s. induction l as [|sig l IH]; intros acc s Hex.
  - by apply Exists_nil in Hex.
  - cbn [build_verifiers].
    destruct (N.eqb_spec (algorithm_id sig) SigningAlgo_SHA1) as [E1|E1];
      [|destruct (N.eqb_spec (algorithm_id sig) SigningAlgo_SHA384) as [E2|E2]].
    1,2: apply Exists_cons in Hex as [Hbad|Hex];
      [destruct Hbad; by (left + right)|];
      unfold bind, log, modify;
      edestruct IH as (sig' & evs & Hin & Hbad & Hrun & Hevs); [exact Hex|];
      exists sig', (EvMakeVerifier (algorithm_id sig) :: evs);
      rewrite Hrun, add_event_with_events, with_events_app;
      (repeat split; [by right | done | constructor; [by eexists | done]]).
    exists sig, []. rewrite with_events_nil.
    repeat split; [by left | by intros [?|?] | done].
Qed.

(** The last loop of [verify]. *)
Lemma finalize_spec i vs s :
  exists r evs,
    finalize i vs s = (r, with_events evs s)
    /\ r <> Raise InvalidSignature
    /\ (r = Ok true <-> Forall (fun v => v_verify v = Ok tt) vs)
    /\ (forall j, EvVerify j (Raise InvalidSignature) ∈ evs -> r = Ok false)
    /\ (Forall (fun v => v_verify v = Ok tt \/ v_verify v = Raise InvalidSignature) vs ->
        Exists (fun v => v_verify v = Raise InvalidSignature) vs -> r = Ok false)
    /\ Forall is_verify_event evs.
Proof.
  revert i s. induction vs as [|v vs IH]; intros i s.
  - exists (Ok true), []. rewrite with_events_nil.
    repeat split; [done | done | by intros ? ?%elem_of_nil | | done].
    by intros _ ?%Exists_nil.
  - cbn [finalize]. unfold bind at 1, log, modify.
    destruct (v_verify v) as [[]|e] eqn:Hv.
    + destruct (IH (S i) (add_event (EvVerify i (Ok ())) s))
        as (r & evs & Hrun & Hne & Htrue & Hinv & Hsome & Hevs).
      exists r, (EvVerify i (Ok ()) :: evs).
      rewrite Hrun, add_event_with_events, with_events_app.
      repeat split; [done | | | | |].
      * intros Hr. constructor; [done | by apply Htrue].
      * intros Hall. apply Htrue. by inversion Hall.
      * intros j [[=]|Hin]%elem_of_cons. by eapply Hinv.
      * intros Hall [Hbad|Hex]%Exists_cons; [congruence|].
        apply Hsome; [by inversion Hall | done].
      * constructor; [by do 2 eexists | done].
    + assert (forall (r : res bool),
                r <> Raise InvalidSignature -> r <> Ok true ->
                (e = InvalidSignature -> r = Ok false) ->
                exists r' evs,
                  (r, add_event (EvVerify i (Raise e)) s) = (r', with_events evs s)
                  /\ r' <> Raise InvalidSignature
                  /\ (r' = Ok true <-> Forall (λ v0, v_verify v0 = Ok ()) (v :: vs))
                  /\ (forall j, EvVerify j (Raise InvalidSignature) ∈ evs -> r' = Ok false)
                  /\ (Forall (fun v => v_verify v = Ok tt \/ v_verify v = Raise InvalidSignature)
                        (v :: vs) ->
                      Exists (fun v => v_verify v = Raise InvalidSignature) (v :: vs) ->
                      r' = Ok false)
                  /\ Forall is_verify_event evs) as Hcase.
      { intros r Hr1 Hr2 Hr3. exists r, [EvVerify i (Raise e)].
        repeat split; [done | done | | | |].
        - intros Hall. inversion Hall; congruence.
        - intros j [[= _ <-]|?%elem_of_nil]%elem_of_cons; [|done]. by apply Hr3.
        - intros Hall _. apply Hr3. inversion Hall as [|? ? [?|?] ?]; congruence.
        - constructor; [by do 2 eexists | done]. }
      destruct e; (apply Hcase; [done | done | done]).
Qed.

(** Either every record is supported or one is not. *)
Lemma supported_cases (l : list sig_entry) :
  Forall (fun sig => supported (algorithm_id sig)) l
  \/ Exists (fun sig => ~ supported (algorithm_id sig)) l.
Proof.
  induction l as [|sig l [IH|IH]]; [by left | | by right; right].
  destruct (N.eq_dec (algorithm_id sig) SigningAlgo_SHA1) as [E1|E1];
    [left; constructor; [by left | done]|].
  destruct (N.eq_dec (algorithm_id sig) SigningAlgo_SHA384) as [E2|E2];
    [left; constructor; [by right | done]|].
  right. left. by intros [?|?].
Qed.


Lemma io_event_not_verdict ev : io_event ev -> not_verdict ev.
Proof. intros [-> | Hc] j; [done | by destruct ev]. Qed.

Lemma io_exn_not_invalid e : io_exn e -> e <> InvalidSignature.
Proof. by intros He ->. Qed.


(** [verify] on a header whose records are all supported: the verifiers
    are made, [self.fileobj] is read, the signed range is fed to the
    verifiers and they are finalized. *)
Lemma verify_run key s sh :
  signatures (mardata (self s)) = Some sh ->
  sigs sh <> [] ->
  Forall (fun sig => supported (algorithm_id sig)) (sigs sh) ->
  verify key s =
    match fileobj (with_events
                     (map (fun sig => EvMakeVerifier (algorithm_id sig)) (sigs sh)) s) with
    | (Raise x, s1) => (Raise x, s1)
    | (Ok h, s1) =>
      match pull h (fun f => get_signature_data f (filesize sh)) s1 with
      | ((bs, Some x), s2) => (Raise x, s2)
      | ((bs, None), s2) =>
        finalize 0 (update_all (map (make_verifier key) (sigs sh)) bs) s2
      end
    end.
Proof.
  intros Hsig Hne Hall. unfold verify, bind at 1, get_state. rewrite Hsig.
  destruct (sigs sh) as [|sig0 l0] eqn:Hl; [done|]. rewrite <- Hl in *.
  unfold bind at 1. rewrite (build_verifiers_supported _ _ _ _ Hall), app_nil_l.
  unfold bind at 1. rewrite length_map, Nat.eqb_refl.
  unfold ret at 1. unfold bind at 1.
  destruct (fileobj _) as [[h|x] s1]; [|done].
  by destruct (pull h _ s1) as [[bs [x|]] s2].
Qed.

Lemma update_all_length (vs : list verifier) bs :
  length (update_all vs bs) = length vs.
Proof.
  unfold update_all. revert vs. induction bs as [|b bs IH]; intros vs; [done|].
  cbn [foldl]. by rewrite IH, length_map.
Qed.

(** How the last loop of [verify] can end. *)
Lemma finalize_outcome i vs s :
  match (finalize i vs s).1 with
  | Ok true => Forall (fun v => v_verify v = Ok tt) vs
  | Ok false => exists v, v ∈ vs /\ v_verify v = Raise InvalidSignature
  | Raise e => e <> InvalidSignature /\ exists v, v ∈ vs /\ v_verify v = Raise e
  end.
Proof.
  revert i s. induction vs as [|v vs IH]; intros i s; [by cbn|].
  cbn [finalize]. unfold bind, log, modify.
  destruct (v_verify v) as [[]|e] eqn:Hv.
  - specialize (IH (S i) (add_event (EvVerify i (Ok tt)) s)).
    destruct (finalize _ _ _) as [[[|]|e] s']; cbn [fst] in *.
    + by constructor.
    + destruct IH as (w & Hw & Hr). exists w. split; [by right | done].
    + destruct IH as (Hne & w & Hw & Hr). split; [done|].
      exists w. split; [by right | done].
  - destruct e; cbn [fst raise ret];
      try (split; [done|]); exists v; (split; [by left | done]).
Qed.

(** The first verifier, in the order of the records, that does not accept
    decides. *)
Lemma finalize_first_failure i vs s k v e :
  vs !! k = Some v ->
  (forall j w, j < k -> vs !! j = Some w -> v_verify w = Ok tt) ->
  v_verify v = Raise e ->
  (finalize i vs s).1 = match e with InvalidSignature => Ok false | _ => Raise e end.
Proof.
  revert i s k. induction vs as [|v0 vs IH]; intros i s k Hk Hbefore Hv;
    [by rewrite lookup_nil in Hk|].
  cbn [finalize]. unfold bind, log, modify. destruct k as [|k].
  - injection Hk as ->. rewrite Hv. by destruct e.
  - rewrite (Hbefore 0 v0) by (done || lia).
    apply (IH _ _ k); [done | | done].
    intros j w Hj Hw. apply (Hbefore (S j)); [lia | done].
Qed.


End VerifyFacts.

Lemma elem_of_map {A B} (f : A -> B) (l : list A) (y : B) :
  y ∈ map f l -> exists x, y = f x /\ x ∈ l.
Proof.
  rewrite list_elem_of_In, in_map_iff. intros (x & <- & Hx).
  exists x. by rewrite list_elem_of_In.
Qed.

(** * The statements of the specification *)

(** ** Verification of signatures *)

Section VerifyClaims.

Context `{Collaborators}.

(** C3: on an archive with no signature block, or with an empty list of
    signatures, [verify] returns [False] for every key, and the state is
    left exactly as it was: no verifier was made and no stream was read
    (the trace did not grow). *)
Theorem verify_no_signatures (verify_key : Key) (s : state) :
  (signatures (mardata (self s)) = None
   \/ exists sh, signatures (mardata (self s)) = Some sh /\ sigs sh = []) ->
  verify verify_key s = (Ok false, s).
Proof.
  intros [Hnone | (sh & Hsome & Hnil)]; unfold verify, bind, get_state.
  - by rewrite Hnone.
  - by rewrite Hsome, Hnil.
Qed.

(** C4: when some signature record carries an algorithm id that is neither
    SHA1 nor SHA384, [verify] raises the unsupported-algorithm error for
    such a record; up to then it has only made verifiers: the heap of file
    objects, the reader and the disk are untouched, and the trace holds
    no read, no decompression and no verifier finalization. *)
Theorem verify_unsupported_algorithm (verify_key : Key) (s : state) (sh : sigs_header) :
  signatures (mardata (self s)) = Some sh ->
  Exists (fun sig => ~ supported (algorithm_id sig)) (sigs sh) ->
  exists sig evs,
    sig ∈ sigs sh /\ ~ supported (algorithm_id sig)
    /\ verify verify_key s =
         (Raise (UnsupportedAlgorithm (algorithm_id sig)),
          State (self s) (heap s) (files s) (dirs s) (trace s ++ evs))
    /\ Forall is_make_verifier evs.
Proof.
  intros Hsome Hex.
  destruct (build_verifiers_unsupported verify_key (sigs sh) [] s Hex)
    as (sig & evs & Hin & Hbad & Hrun & Hevs).
  exists sig, evs. repeat split; [done | done | | done].
  unfold verify, bind at 1, get_state. rewrite Hsome.
  destruct (sigs sh) as [|sig0 l] eqn:Hl; [by apply Exists_nil in Hex|].
  unfold bind at 1. by rewrite Hrun.
Qed.

(** C1: [verify] never raises InvalidSignature; whenever a verifier's
    finalization reports InvalidSignature the call returns [False]; and it
    returns [True] only when every record is supported, the scan went
    through, and every verifier built accepts.  When the scan goes through,
    the result is [True] if all verifiers accept, and [False] if one
    reports InvalidSignature and none raises anything else. *)
Theorem verify_invalid_signature_is_false (verify_key : Key) (s : state) :
  let r := (verify verify_key s).1 in
  let s' := (verify verify_key s).2 in
  r <> Raise InvalidSignature
  /\ (exists evs, trace s' = trace s ++ evs
        /\ forall i, EvVerify i (Raise InvalidSignature) ∈ evs -> r = Ok false)
  /\ (r = Ok true ->
        exists sh bs,
          signatures (mardata (self s)) = Some sh
          /\ sigs sh <> []
          /\ Forall (fun sig => supported (algorithm_id sig)) (sigs sh)
          /\ scanned s sh bs
          /\ Forall (fun v => v_verify v = Ok tt)
               (update_all (map (make_verifier verify_key) (sigs sh)) bs))
  /\ (forall sh bs,
        signatures (mardata (self s)) = Some sh ->
        sigs sh <> [] ->
        Forall (fun sig => supported (algorithm_id sig)) (sigs sh) ->
        scanned s sh bs ->
        let vs := update_all (map (make_verifier verify_key) (sigs sh)) bs in
        (Forall (fun v => v_verify v = Ok tt) vs -> r = Ok true)
        /\ (Forall (fun v => v_verify v = Ok tt \/ v_verify v = Raise InvalidSignature) vs ->
            Exists (fun v => v_verify v = Raise InvalidSignature) vs ->
            r = Ok false)).
Proof.
  intros r s'. subst r s'.
  destruct (verify verify_key s) as [r s'] eqn:Hrun. cbn [fst snd].
  (* the ways out before any verifier is made *)
  assert (r = Ok false -> s' = s ->
          r <> Raise InvalidSignature
          /\ (exists evs, trace s' = trace s ++ evs
               /\ forall i, EvVerify i (Raise InvalidSignature) ∈ evs -> r = Ok false)
          /\ (r = Ok true -> False)) as Htriv.
  { intros -> ->. repeat split; [done | | done].
    exists []. by rewrite app_nil_r. }
  unfold verify, bind at 1, get_state in Hrun.
  destruct (signatures (mardata (self s))) as [sh|] eqn:Hsig.
  2: { injection Hrun as <- <-. destruct (Htriv eq_refl eq_refl) as (H1 & H2 & H3).
       split; [|split; [|split]]; [done | done | by intros ?%H3 | done]. }
  destruct (sigs sh) as [|sig0 l0] eqn:Hl.
  { injection Hrun as <- <-. destruct (Htriv eq_refl eq_refl) as (H1 & H2 & H3).
    split; [|split; [|split]]; [done | done | by intros ?%H3 |].
    intros sh' bl [= <-]. by rewrite Hl. }
  clear Htriv. rewrite <- Hl in Hrun.
  assert (sigs sh <> []) as Hne by (by rewrite Hl). clear sig0 l0 Hl.
  unfold bind at 1 in Hrun.
  destruct (supported_cases (sigs sh)) as [Hall | Hex].
  - rewrite (build_verifiers_supported _ _ _ _ Hall), app_nil_l in Hrun.
    set (s0 := with_events _ s) in *.
    unfold bind at 1 in Hrun. rewrite length_map, Nat.eqb_refl in Hrun.
    unfold ret at 1 in Hrun. unfold bind at 1 in Hrun.
    destruct (safe_fileobj s0) as [Hstep0 Hexn0].
    destruct (fileobj s0) as [[h|e] s1] eqn:Hfo; cbn [fst snd] in *.
    + destruct (gen_safe_pull io_event h
                  (fun f => get_signature_data f (filesize sh))
                  ltac:(by right) s1) as [Hstep1 Hexn1].
      assert (exists pre,
                trace (pull h (fun f => get_signature_data f (filesize sh)) s1).2
                  = trace s ++ pre /\ Forall not_verdict pre) as (pre & Hpre & Hprev).
      { destruct Hstep0 as (_ & _ & evs0 & Ht0 & Hev0).
        destruct Hstep1 as (_ & _ & evs1 & Ht1 & Hev1).
        eexists. split.
        - rewrite Ht1, Ht0. subst s0. cbn [with_events trace].
          rewrite <- !app_assoc. reflexivity.
        - rewrite !Forall_app. repeat split.
          + apply Forall_forall. intros ev (sig & -> & _)%elem_of_map j. done.
          + eapply Forall_impl; [exact Hev0 | apply io_event_not_verdict].
          + eapply Forall_impl; [exact Hev1 | apply io_event_not_verdict]. }
      assert (forall bl, scanned s sh bl ->
                exists f, heap s1 !! h = Some f /\ f_closed f = false
                  /\ ending (get_signature_data f (filesize sh)) = None
                  /\ bl = blocks (get_signature_data f (filesize sh))) as Hscan.
      { intros bl (h' & s1' & f & Hfo' & Hh & Hc & He & ->).
        fold s0 in Hfo'. rewrite Hfo in Hfo'. injection Hfo' as <- <-. eauto. }
      (* the scan did not go through *)
      assert (forall e, io_exn e ->
                (Raise e, (pull h (fun f => get_signature_data f (filesize sh)) s1).2)
                  = (r, s') ->
                (forall bl, ~ scanned s sh bl) ->
                r <> Raise InvalidSignature
                /\ (exists evs, trace s' = trace s ++ evs
                     /\ forall i, EvVerify i (Raise InvalidSignature) ∈ evs -> r = Ok false)
                /\ (r = Ok true -> False)
                /\ (forall bl, ~ scanned s sh bl)) as Hfail.
      { intros e He [= <- <-] Hns.
        split; [|split; [|split]]; [by intros [= ->] | | done | done].
        exists pre. split; [done|]. intros i Hin.
        by destruct (proj1 (Forall_forall _ _) Hprev _ Hin i). }
      unfold pull, get_file in Hrun, Hpre, Hfail.
      destruct (heap s1 !! h) as [f|] eqn:Hh;
        [destruct (f_closed f) eqn:Hc|]; cbn [fst snd] in Hrun, Hpre, Hfail.
      * destruct (Hfail _ (I : io_exn (ClosedFile h)) Hrun) as (H1 & H2 & H3 & H4).
        { intros bl (f' & Hh' & Hc' & _)%Hscan. congruence. }
        split; [|split; [|split]]; [done | done | by intros ?%H3 |].
        intros sh' bl [= <-] _ _ Hsc. by destruct (H4 bl).
      * destruct (ending (get_signature_data f (filesize sh))) as [e|] eqn:He;
          cbn [fmap option_fmap option_map] in Hrun, Hfail.
        -- destruct (Hfail _ (I : io_exn (StreamError e)) Hrun) as (H1 & H2 & H3 & H4).
           { intros bl (f' & Hh' & Hc' & He' & _)%Hscan. congruence. }
           split; [|split; [|split]]; [done | done | by intros ?%H3 |].
           intros sh' bl [= <-] _ _ Hsc. by destruct (H4 bl).
        -- clear Hfail.
           set (bl0 := blocks (get_signature_data f (filesize sh))) in *.
           set (s2 := add_event _ _) in *.
           destruct (finalize_spec 0
                       (update_all (map (make_verifier verify_key) (sigs sh)) bl0) s2)
             as (r0 & evs & Hfin & Hr1 & Hr2 & Hr3 & Hr4 & Hr5).
           rewrite Hfin in Hrun. injection Hrun as <- <-.
           assert (scanned s sh bl0) as Hsc0.
           { exists h, s1, f. by fold s0. }
           split; [|split; [|split]]; [done | | |].
           ++ exists (pre ++ evs). split.
              ** cbn [with_events trace]. by rewrite Hpre, app_assoc.
              ** intros i [Hin|Hin]%elem_of_app; [|by eapply Hr3].
                 by destruct (proj1 (Forall_forall _ _) Hprev _ Hin i).
           ++ intros Hok. exists sh, bl0.
              split; [done|]. split; [done|]. split; [done|]. split; [done|].
              by apply Hr2.
           ++ intros sh' bl [= <-] _ _ (f' & Hh' & _ & _ & ->)%Hscan.
              injection Hh' as <-. fold bl0.
              split; [by apply Hr2 | done].
      * destruct (Hfail _ (I : io_exn (OtherError _)) Hrun) as (H1 & H2 & H3 & H4).
        { intros bl (f' & Hh' & _)%Hscan. congruence. }
        split; [|split; [|split]]; [done | done | by intros ?%H3 |].
        intros sh' bl [= <-] _ _ Hsc. by destruct (H4 bl).
    + (* [self.fileobj] raised *)
      injection Hrun as <- <-.
      specialize (Hexn0 e eq_refl).
      split; [|split; [|split]].
      * intros [= ->]. done.
      * destruct Hstep0 as (_ & _ & evs0 & Ht0 & Hev0).
        eexists. split.
        -- rewrite Ht0. subst s0. cbn [with_events trace].
           rewrite <- app_assoc. reflexivity.
        -- intros i [Hin|Hin]%elem_of_app.
           ++ by apply elem_of_map in Hin as (sig & [=] & _).
           ++ by destruct (io_event_not_verdict _
                             (proj1 (Forall_forall _ _) Hev0 _ Hin) i).
      * done.
      * intros sh' bl [= <-] _ _ (h' & s1' & f & Hfo' & _).
        fold s0 in Hfo'. congruence.
  - (* a record is not supported *)
    destruct (build_verifiers_unsupported verify_key (sigs sh) [] s Hex)
      as (sig & evs & Hin & Hbad & Hb & Hevs).
    rewrite Hb in Hrun. injection Hrun as <- <-.
    split; [|split; [|split]]; [done | | done |].
    + exists evs. split; [done|]. intros i Hi.
      by destruct (proj1 (Forall_forall _ _) Hevs _ Hi) as [id [=]].
    + intros sh' bl [= <-] _ Hall. exfalso.
      apply Exists_exists in Hex as (sig' & Hin' & Hbad').
      by apply Hbad', (proj1 (Forall_forall _ _) Hall).
Qed.

End VerifyClaims.

(** ** The decompression cache *)

Lemma decompressions_app tr1 tr2 :
  decompressions (tr1 ++ tr2) = decompressions tr1 + decompressions tr2.
Proof. unfold decompressions. by rewrite List.filter_app, length_app. Qed.

Lemma decompressions_cache_events evs :
  Forall cache_event evs -> decompressions evs = 0.
Proof.
  induction 1 as [|ev evs Hev _ IH]; [done|].
  unfold decompressions in *. simpl. by destruct ev.
Qed.

Section CacheFacts.

Context `{Collaborators}.

(** [decompress] is entered once per call, whether it returns or raises. *)
Lemma decompress_trace s :
  exists evs,
    trace (decompress s).2 = trace s ++ EvDecompress :: evs
    /\ Forall cache_event evs.
Proof.
  unfold decompress. unfold bind at 1. unfold log, modify.
  match goal with |- context [bind get_state ?k] =>
    assert (safe cache_event (bind get_state k)) as Hs end.
  { apply safe_bind; [apply safe_get_state|]. intros s0.
    apply safe_bind; [by apply safe_TemporaryFile|]. intros dst.
    apply safe_bind; [apply safe_file_seek|]. intros _.
    apply safe_bind; [apply safe_file_seek|]. intros _.
    apply safe_bind; [by apply safe_write_to_file, gen_safe_pull|]. intros _.
    apply safe_bind; [apply safe_file_seek|]. intros _.
    apply safe_ret. }
  destruct (Hs (add_event EvDecompress s)) as [(_ & _ & evs & Ht & Hev) _].
  exists evs. split; [|done]. rewrite Ht. simpl. by rewrite <- app_assoc.
Qed.

Lemma access_times_settled n h s :
  settled h s -> access_times n s = (replicate n (Ok h), s).
Proof.
  intros Hs. induction n as [|n IH]; [done|].
  cbn [access_times replicate]. by rewrite (settled_fileobj s h Hs), IH.
Qed.

End CacheFacts.

Section CacheClaims.

Context `{Collaborators}.

(** C5, as amended: on an archive that is not compressed every access
    returns the raw stream and leaves the state as it is; on a compressed
    archive an access that returns a stream has cached it, has entered
    [decompress] at most once, and every later access returns that same
    stream and does nothing else; an access that raises has entered
    [decompress] once and has cached nothing. *)
Theorem fileobj_cache_memoized (s : state) :
  (is_compressed (self s) = false ->
     forall n, access_times n s = (replicate n (Ok (_raw_fileobj (self s))), s))
  /\ (is_compressed (self s) = true ->
      forall h s1, fileobj s = (Ok h, s1) ->
        _decompressed_fileobj (self s1) = Some h
        /\ decompressions (trace s1) <= decompressions (trace s) + 1
        /\ forall n, access_times n s1 = (replicate n (Ok h), s1))
  /\ (forall e s1, fileobj s = (Raise e, s1) ->
        is_compressed (self s1) = true
        /\ _decompressed_fileobj (self s1) = None
        /\ decompressions (trace s1) = decompressions (trace s) + 1).
Proof.
  split; [|split].
  - intros Hc n. apply access_times_settled. by left.
  - intros Hc h s1 Hrun.
    pose proof (fileobj_settled _ _ _ Hrun) as Hs.
    assert (is_compressed (self s1) = true /\ _decompressed_fileobj (self s1) = Some h)
      as [Hc1 Hd1].
    { destruct Hs as [[Hc1 _]|?]; [|done].
      destruct (_decompressed_fileobj (self s)) as [h0|] eqn:Hd.
      - rewrite (fileobj_cached s h0) in Hrun by done.
        injection Hrun as <- <-. congruence.
      - rewrite fileobj_fill in Hrun by done.
        destruct (decompress s) as [[h1|e] s']; [|done].
        by injection Hrun as <- <-. }
    split; [done|]. split; [|intros n; by apply access_times_settled].
    destruct (_decompressed_fileobj (self s)) as [h0|] eqn:Hd.
    + rewrite (fileobj_cached s h0) in Hrun by done.
      injection Hrun as <- <-. lia.
    + rewrite fileobj_fill in Hrun by done.
      destruct (decompress_trace s) as (evs & Ht & Hev).
      destruct (decompress s) as [[h1|e] s']; [|done].
      injection Hrun as <- <-. cbn [set_self trace snd] in *.
      rewrite Ht, decompressions_app.
      change (EvDecompress :: evs) with ([EvDecompress] ++ evs).
      rewrite decompressions_app, (decompressions_cache_events evs) by done.
      simpl. lia.
  - intros e s1 Hrun.
    destruct (is_compressed (self s)) eqn:Hc;
      [|by rewrite fileobj_uncompressed in Hrun].
    destruct (_decompressed_fileobj (self s)) as [h0|] eqn:Hd;
      [by rewrite (fileobj_cached s h0) in Hrun|].
    rewrite fileobj_fill in Hrun by done.
    pose proof (decompress_self s) as Hself.
    destruct (decompress_trace s) as (evs & Ht & Hev).
    destruct (decompress s) as [[h1|e'] s']; [done|].
    injection Hrun as <- <-. cbn [snd] in *.
    rewrite Hself, Ht, decompressions_app.
    change (EvDecompress :: evs) with ([EvDecompress] ++ evs).
    rewrite decompressions_app, (decompressions_cache_events evs) by done.
    split; [done|]. split; [done|]. simpl. lia.
Qed.

End CacheClaims.

(** C5, as stated, fails: on the compressed archive with a damaged data
    section two accesses enter [decompress] twice. *)
Lemma fileobj_decompresses_again :
  ~ (forall (C : Collaborators) (s : state) (n : nat),
       is_compressed (self s) = true ->
       decompressions (trace (access_times n s).2) <= decompressions (trace s) + 1).
Proof.
  intros Hclaim.
  specialize (Hclaim Toy.collaborators Toy.damaged_state 2 eq_refl).
  vm_compute in Hclaim. lia.
Qed.

(** C9, as stated, fails: after a [with] block in which the spool of the
    compressed archive was created, the spool is open and [close()] was
    never called on it. *)
Lemma exit_leaves_spool_open :
  let s := (@with_reader Toy.collaborators _
              (fun _ => @fileobj Toy.collaborators) Toy.packed_state).2 in
  _decompressed_fileobj (self s) = Some 1
  /\ ~ released 1 s
  /\ closes 1 (trace s) = 0.
Proof.
  vm_compute. repeat split.
  intros (f & [= <-] & [=]).
Qed.

(** ** Extraction of an entry *)

Lemma pull_data (h : handle) mk s (k : handle) :
  f_data <$> heap (pull h mk s).2 !! k = f_data <$> heap s !! k.
Proof.
  unfold pull, get_file.
  destruct (heap s !! h) as [f|] eqn:Hh; [destruct (f_closed f)|]; [done| |done].
  cbn [snd add_event set_heap heap].
  destruct (decide (k = h)) as [Heq|Hne].
  - rewrite Heq, list_lookup_insert_eq by (by eapply lookup_lt_Some). by rewrite Hh.
  - by rewrite list_lookup_insert_ne.
Qed.

Section ExtractFacts.

Context `{Collaborators}.

(** [extract_entry], run where [self.fileobj] gives an open file. *)
Lemma extract_entry_run e m s h s1 f :
  fileobj s = (Ok h, s1) -> heap s1 !! h = Some f -> f_closed f = false ->
  extract_entry e m s =
    ((blocks (entry_stream e m f), StreamError <$> ending (entry_stream e m f)),
     add_event (EvRead h)
       (set_heap (<[h := f_seek (final_pos (entry_stream e m f)) f]> (heap s1)) s1)).
Proof.
  intros Hfo Hh Hc. unfold extract_entry.
  pose proof (fileobj_settled _ _ _ Hfo) as Hs.
  erewrite bind_ok by exact Hfo.
  erewrite bind_ok by (by apply file_seek_ok).
  rewrite (settled_fileobj _ h) by (by apply settled_set_heap).
  erewrite pull_ok;
    [|cbn [set_heap heap]; apply list_lookup_insert_eq; by eapply lookup_lt_Some
     |done].
  cbv [set_heap add_event self heap files dirs trace].
  by rewrite list_insert_insert_eq.
Qed.

(** Whatever the mode, [extract_entry] leaves the same bytes in every
    file object. *)
Lemma extract_entry_data e m1 m2 s (k : handle) :
  f_data <$> heap (extract_entry e m1 s).2 !! k
  = f_data <$> heap (extract_entry e m2 s).2 !! k.
Proof.
  unfold extract_entry.
  destruct ((h <- fileobj ;; file_seek h (e_offset e) ;; fileobj) s) as [[h|x] s'];
    [|done].
  by rewrite !pull_data.
Qed.

Lemma extract_entry_self e m1 m2 s :
  self (extract_entry e m1 s).2 = self (extract_entry e m2 s).2.
Proof.
  unfold extract_entry.
  destruct ((h <- fileobj ;; file_seek h (e_offset e) ;; fileobj) s) as [[h|x] s'];
    [|done].
  unfold pull. by destruct (get_file h s') as [[f|x] s''].
Qed.

End ExtractFacts.

Section ExtractClaims.

Context `{Collaborators}.

(** C6: with mode [none], where [self.fileobj] gives an open stream,
    [extract_entry] yields the bytes of that stream from [e.offset], at most
    [e.size] of them and through no filter.  When the stream holds the
    whole range (at least [e.size] bytes from [e.offset], as when
    [e.offset + e.size] is within the stream) the blocks add up to exactly
    [e.size] bytes and the generator ends normally; when the stream ends
    early the generator raises the length mismatch after the bytes that
    were there.  The
    stream's contents are not changed. *)
Theorem extract_entry_none_exact (e : index_entry) (s s1 : state) (h : handle) (f : file) :
  0 < block_size ->
  fileobj s = (Ok h, s1) -> heap s1 !! h = Some f -> f_closed f = false ->
  let avail := drop (e_offset e) (f_data f) in
  let '((bl, ending), s2) := extract_entry e Decompression.none s in
  concat bl = take (e_size e) avail
  /\ ending = (if length avail <? e_size e
               then Some (StreamError (NotEnoughData (length avail) (e_size e)))
               else None)
  /\ (e_size e <= length avail ->
      length (concat bl) = e_size e /\ ending = None)
  /\ (length avail < e_size e ->
      concat bl = avail /\ length (concat bl) < e_size e /\ ending <> None)
  /\ (e_offset e + e_size e <= length (f_data f) -> e_size e <= length avail)
  /\ f_data <$> heap s2 !! h = Some (f_data f).
Proof.
  intros Hbs Hfo Hh Hc avail.
  rewrite (extract_entry_run e Decompression.none s h s1 f Hfo Hh Hc).
  unfold entry_stream, entry_filter.
  destruct (take_from_file_spec block_size (f_seek (e_offset e) f) (e_size e) Hbs)
    as [Hcont Hend].
  cbn [f_seek f_pos f_data] in Hcont, Hend. fold avail in Hcont, Hend.
  fold (content (takeexactly (file_iter block_size (f_seek (e_offset e) f)) (e_size e))).
  rewrite Hcont, Hend.
  assert (length avail = length (f_data f) - e_offset e) as Hlen
    by (subst avail; apply length_drop).
  split; [done|]. split.
  { by destruct (length avail <? e_size e). }
  split; [|split; [|split]].
  - intros Hin. rewrite length_take.
    destruct (Nat.ltb_spec (length avail) (e_size e)); [lia|]. split; [lia|done].
  - intros Hout.
    destruct (Nat.ltb_spec (length avail) (e_size e)); [|lia].
    rewrite take_ge by lia. done.
  - lia.
  - cbn [add_event set_heap heap].
    by rewrite list_lookup_insert_eq by (by eapply lookup_lt_Some).
Qed.

(** C8: with mode [xz], [extract_entry] does what it does with mode
    [none]: the same blocks, the same ending, the same state.  No filter
    is applied: where [self.fileobj] gives an open stream the blocks are
    the bytes of that stream from [e.offset], unmodified, exactly
    [e.size] of them when the stream holds the range, and the stream's
    contents are not changed. *)
Theorem extract_entry_xz_is_none (e : index_entry) (s : state) :
  extract_entry e Decompression.xz s = extract_entry e Decompression.none s
  /\ (0 < block_size ->
      forall s1 (h : handle) f,
        fileobj s = (Ok h, s1) -> heap s1 !! h = Some f -> f_closed f = false ->
        let avail := drop (e_offset e) (f_data f) in
        let '((bl, ending), s2) := extract_entry e Decompression.xz s in
        concat bl = take (e_size e) avail
        /\ ending = (if length avail <? e_size e
                     then Some (StreamError (NotEnoughData (length avail) (e_size e)))
                     else None)
        /\ (e_size e <= length avail ->
            length (concat bl) = e_size e /\ ending = None)
        /\ (length avail < e_size e ->
            concat bl = avail /\ ending <> None)
        /\ f_data <$> heap s2 !! h = Some (f_data f)).
Proof.
  split; [reflexivity|]. intros Hbs s1 h f Hfo Hh Hc avail.
  rewrite (extract_entry_run e Decompression.xz s h s1 f Hfo Hh Hc).
  unfold entry_stream, entry_filter.
  destruct (take_from_file_spec block_size (f_seek (e_offset e) f) (e_size e) Hbs)
    as [Hcont Hend].
  cbn [f_seek f_pos f_data] in Hcont, Hend. fold avail in Hcont, Hend.
  fold (content (takeexactly (file_iter block_size (f_seek (e_offset e) f)) (e_size e))).
  rewrite Hcont, Hend.
  split; [done|]. split; [by destruct (length avail <? e_size e)|].
  split; [|split].
  - intros Hin. rewrite length_take.
    destruct (Nat.ltb_spec (length avail) (e_size e)); [lia|]. split; [lia | done].
  - intros Hout.
    destruct (Nat.ltb_spec (length avail) (e_size e)); [|lia].
    by rewrite take_ge by lia.
  - cbn [add_event set_heap heap].
    by rewrite list_lookup_insert_eq by (by eapply lookup_lt_Some).
Qed.

(** C7: [decompress] takes no mode.  On a reader whose raw stream is open
    it feeds the XZ filter exactly the [data_length] bytes of the raw
    stream from [data_offset] (the stream fed ends with the length
    mismatch when the raw stream is shorter), and spools what the filter
    yields; whatever
    mode [extract_entry] is called with, the file objects, the spool among
    them, end up with the same bytes and the reader in the same state. *)
Theorem decompress_fixed_codec (s : state) (f : file) :
  0 < block_size ->
  let md := mardata (self s) in
  let raw := _raw_fileobj (self s) in
  heap s !! raw = Some f -> f_closed f = false ->
  let src := takeexactly (file_iter block_size (f_seek (data_offset md) f))
               (data_length md) in
  let st := xz_decompress_stream src in
  let avail := drop (data_offset md) (f_data f) in
  content src = take (data_length md) avail
  /\ (data_length md <= length avail ->
      ending src = None /\ length (content src) = data_length md)
  /\ (length avail < data_length md ->
      ending src = Some (NotEnoughData (length avail) (data_length md)))
  /\ (data_offset md + data_length md <= length (f_data f) ->
      data_length md <= length avail)
  /\ decompress s =
       (match ending st with
        | None => Ok (length (heap s))
        | Some e => Raise (StreamError e)
        end,
        State (self s)
          (<[raw := f_seek (final_pos st) f]> (heap s)
             ++ [match ending st with
                 | None => f_seek 0 (spooled (data_offset md) (content st))
                 | Some _ => spooled (data_offset md) (content st)
                 end])
          (files s) (dirs s)
          (trace s ++ [EvDecompress; EvTempfile (length (heap s)); EvRead raw]))
  /\ (forall e m1 m2,
        self (extract_entry e m1 s).2 = self (extract_entry e m2 s).2
        /\ forall k : handle, f_data <$> heap (extract_entry e m1 s).2 !! k
                     = f_data <$> heap (extract_entry e m2 s).2 !! k).
Proof.
  intros Hbs md raw Hraw Hopen src st avail.
  destruct (take_from_file_spec block_size (f_seek (data_offset md) f)
              (data_length md) Hbs) as [Hcont Hend].
  cbn [f_seek f_pos f_data] in Hcont, Hend. fold src avail in Hcont, Hend.
  assert (length avail = length (f_data f) - data_offset md) as Hlen
    by (subst avail; apply length_drop).
  split; [done|]. split; [|split; [|split; [|split]]].
  - intros Hin. rewrite Hend, Hcont, length_take.
    destruct (Nat.ltb_spec (length avail) (data_length md)); [lia|].
    split; [done|lia].
  - intros Hout. rewrite Hend.
    by destruct (Nat.ltb_spec (length avail) (data_length md)); [|lia].
  - lia.
  - by apply decompress_spec.
  - intros e m1 m2. split; [apply extract_entry_self|].
    intros k. apply extract_entry_data.
Qed.

End ExtractClaims.

Section OffsetClaims.

Context `{Collaborators}.

(** C10: [decompress] seeks the spool to [data_offset] before it writes.
    When it returns, the spool is rewound and holds the decompressed bytes
    from [data_offset] on: byte [i] of the output is byte
    [data_offset + i] of the spool, and whatever the spool holds below
    [data_offset] is a zero byte of the gap, not archive data.  On a reader
    whose [fileobj] is settled on the stream [h] (the raw stream of a plain
    archive, the cached spool of a compressed one) [extract_entry] reads
    the stream from [e.offset] and [verify] scans it with the stored
    [filesize], the same in both cases; so an entry at offset
    [data_offset + i] of a spool reads the decompressed bytes from [i].
    On such a reader [verify], once its verifiers are made, is that scan
    and nothing else before the verdict: it feeds the verifiers the blocks
    [get_signature_data] gives for the stream [h] and the stored
    [filesize], raises what the scan raises, and returns [True] when every
    verifier accepts what was fed. *)
Theorem decompress_keeps_offsets (s : state) (f : file) :
  let md := mardata (self s) in
  let raw := _raw_fileobj (self s) in
  heap s !! raw = Some f -> f_closed f = false ->
  (forall h s1, decompress s = (Ok h, s1) ->
     let c := content (archive_stream md f) in
     exists data,
       heap s1 !! h = Some (File data 0 false)
       /\ data = match c with [] => [] | _ => replicate (data_offset md) x00 ++ c end
       /\ (forall i b, i < data_offset md -> data !! i = Some b -> b = x00)
       /\ (forall i, data !! (data_offset md + i) = c !! i)
       /\ (forall i n, drop (data_offset md + i) data = drop i c
                       /\ take n (drop (data_offset md + i) data) = take n (drop i c)))
  /\ (forall s2 h g e m,
        settled h s2 -> heap s2 !! h = Some g -> f_closed g = false ->
        extract_entry e m s2 =
          ((blocks (entry_stream e m g), StreamError <$> ending (entry_stream e m g)),
           add_event (EvRead h)
             (set_heap (<[h := f_seek (final_pos (entry_stream e m g)) g]> (heap s2)) s2)))
  /\ (forall s2 h g sh,
        settled h s2 -> heap s2 !! h = Some g -> f_closed g = false ->
        ending (get_signature_data g (filesize sh)) = None ->
        scanned s2 sh (blocks (get_signature_data g (filesize sh))))
  /\ (forall s2 h g sh verify_key,
        settled h s2 -> heap s2 !! h = Some g -> f_closed g = false ->
        signatures (mardata (self s2)) = Some sh -> sigs sh <> [] ->
        Forall (fun sig => supported (algorithm_id sig)) (sigs sh) ->
        let st := get_signature_data g (filesize sh) in
        let vs := update_all (map (make_verifier verify_key) (sigs sh)) (blocks st) in
        let s3 := add_event (EvRead h)
                    (set_heap (<[h := f_seek (final_pos st) g]> (heap s2))
                       (with_events
                          (map (fun sig => EvMakeVerifier (algorithm_id sig)) (sigs sh))
                          s2)) in
        verify verify_key s2 =
          match ending st with
          | Some x => (Raise (StreamError x), s3)
          | None => finalize 0 vs s3
          end
        /\ (ending st = None -> Forall (fun v => v_verify v = Ok tt) vs ->
            (verify verify_key s2).1 = Ok true)).
Proof.
  intros md raw Hraw Hopen. split; [|split; [|split]].
  - intros h s1 Hrun c.
    rewrite (decompress_spec s f Hraw Hopen) in Hrun.
    fold md raw c in Hrun.
    destruct (ending (archive_stream md f)) as [e|]; [done|].
    injection Hrun as <- <-. cbn [heap].
    rewrite heap_lookup_new' by apply length_insert.
    eexists. split; [reflexivity|]. split; [done|].
    destruct c as [|x c'] eqn:Hc; cbn [spooled f_data].
    { split; [by intros i b _ ?|]. split; [done|].
      intros i n. by rewrite !drop_nil. }
    rewrite <- Hc. unfold bytes in *. split; [|split].
    + intros i b Hi. rewrite lookup_app_l by (by rewrite length_replicate).
      by intros [-> _]%lookup_replicate.
    + intros i. rewrite lookup_app_r by (rewrite length_replicate; lia).
      rewrite length_replicate. f_equal. lia.
    + intros i n.
      assert (drop (data_offset md + i) (replicate (data_offset md) x00 ++ c)
              = drop i c) as ->; [|done].
      rewrite drop_app_ge by (rewrite length_replicate; lia).
      rewrite length_replicate. f_equal. lia.
  - intros s2 h g e m Hs Hh Hc.
    by apply extract_entry_run; [apply settled_fileobj|..].
  - intros s2 h g sh Hs Hh Hc He.
    exists h, (with_events
                 (map (fun sig => EvMakeVerifier (algorithm_id sig)) (sigs sh)) s2), g.
    split; [by apply settled_fileobj|]. done.
  - intros s2 h g sh verify_key Hs Hh Hc Hsig Hne Hall st vs s3.
    assert (verify verify_key s2 =
              match ending st with
              | Some x => (Raise (StreamError x), s3)
              | None => finalize 0 vs s3
              end) as Hrun.
    { rewrite (verify_run _ _ _ Hsig Hne Hall).
      set (s0 := with_events _ s2).
      rewrite (settled_fileobj s0 h) by done.
      rewrite (pull_ok s0 h g) by done. fold st s3.
      by destruct (ending st). }
    split; [exact Hrun|]. intros He Hvs. rewrite Hrun, He.
    destruct (finalize_spec 0 vs s3) as (r & evs & -> & _ & Hr & _).
    by apply Hr.
Qed.

End OffsetClaims.

(** ** Extraction into a directory *)












Section ExtractDirFacts.

Context `{Collaborators}.




End ExtractDirFacts.

Section ExtractDirClaims.

Context `{Collaborators}.


End ExtractDirClaims.

(** ** What the reader keeps *)

Lemma kept_refl n s : kept n s s.
Proof.
  split; [done|]. split; [eauto|]. exists []. rewrite app_nil_r.
  split; [done|]. by intros k ?%elem_of_nil.
Qed.

Lemma kept_trans n s1 s2 s3 : kept n s1 s2 -> kept n s2 s3 -> kept n s1 s3.
Proof.
  intros (Hl1 & H1 & evs1 & Ht1 & He1) (Hl2 & H2 & evs2 & Ht2 & He2).
  split; [lia|]. split.
  - intros k f Hk Hf. destruct (H1 k f Hk Hf) as (f1 & Hf1 & Hd1 & Hc1).
    destruct (H2 k f1 Hk Hf1) as (f2 & Hf2 & Hd2 & Hc2).
    exists f2. split; [done|]. split; congruence.
  - exists (evs1 ++ evs2). split; [by rewrite Ht2, Ht1, app_assoc|].
    intros k [?|?]%elem_of_app; eauto.
Qed.

Lemma kept_quiet n s s' : heap s' = heap s -> trace s' = trace s -> kept n s s'.
Proof.
  intros Hh Ht. split; [by rewrite Hh|]. split; [rewrite Hh; eauto|].
  exists []. rewrite Ht, app_nil_r. split; [done|]. by intros k ?%elem_of_nil.
Qed.

Lemma kept_add_event n ev s :
  (forall k : handle, ev = EvClose k -> n <= k) -> kept n s (add_event ev s).
Proof.
  intros Hev. split; [done|]. split; [eauto|]. exists [ev]. split; [done|].
  intros k Hk%list_elem_of_singleton. apply Hev. by rewrite Hk.
Qed.

Lemma kept_heap n hp s :
  length (heap s) <= length hp ->
  (forall (k : handle) f, k < n -> heap s !! k = Some f ->
     exists f', hp !! k = Some f' /\ f_data f' = f_data f /\ f_closed f' = f_closed f) ->
  kept n s (set_heap hp s).
Proof.
  intros Hl Hk. split; [done|]. split; [done|]. exists []. cbn [set_heap trace].
  rewrite app_nil_r. split; [done|]. by intros k ?%elem_of_nil.
Qed.

Lemma kept_seek n (h : handle) p f s :
  heap s !! h = Some f -> kept n s (set_heap (<[h := f_seek p f]> (heap s)) s).
Proof.
  intros Hh. apply kept_heap; [by rewrite length_insert|].
  intros k g _ Hg. destruct (decide (k = h)) as [->|Hne].
  - rewrite list_lookup_insert_eq by (by eapply lookup_lt_Some).
    exists (f_seek p f). rewrite Hh in Hg. by injection Hg as <-.
  - rewrite list_lookup_insert_ne by done. eauto.
Qed.

Lemma kept_new n x s : kept n s (set_heap (heap s ++ [x]) s).
Proof.
  apply kept_heap; [rewrite length_app; lia|].
  intros k g _ Hg. rewrite lookup_app_l by (by eapply lookup_lt_Some). eauto.
Qed.

Lemma kept_above n (h : handle) x s :
  n <= h -> kept n s (set_heap (<[h := x]> (heap s)) s).
Proof.
  intros Hn. apply kept_heap; [by rewrite length_insert|].
  intros k g Hk Hg. rewrite list_lookup_insert_ne by lia. eauto.
Qed.

Lemma keeps_files_ret {A} n (a : A) : keeps_files n (ret a).
Proof. intros s _. apply kept_refl. Qed.

Lemma keeps_files_raise {A} n e : keeps_files n (@raise A e).
Proof. intros s _. apply kept_refl. Qed.

Lemma keeps_files_bind {A B} n (m : M A) (k : A -> M B) :
  keeps_files n m -> (forall a, keeps_files n (k a)) -> keeps_files n (bind m k).
Proof.
  intros Hm Hk s Hn. unfold bind. specialize (Hm s Hn).
  destruct (m s) as [[a|e] s1]; cbn [snd] in *; [|done].
  eapply kept_trans; [exact Hm|]. apply Hk. destruct Hm as [Hl _]. lia.
Qed.

Lemma keeps_files_get_state n : keeps_files n get_state.
Proof. intros s _. apply kept_refl. Qed.

Lemma keeps_files_log n ev :
  (forall k : handle, ev = EvClose k -> n <= k) -> keeps_files n (log ev).
Proof. intros Hev s _. by apply kept_add_event. Qed.

Lemma keeps_files_file_seek n h p : keeps_files n (file_seek h p).
Proof.
  intros s _. unfold file_seek, bind, get_file, put_file, modify.
  destruct (heap s !! h) as [f|] eqn:Hh; [destruct (f_closed f)|];
    try apply kept_refl.
  by apply kept_seek.
Qed.

(** The handle [TemporaryFile] gives is new. *)
Lemma keeps_files_TemporaryFile {B} n (k : handle -> M B) :
  (forall h, n <= h -> keeps_files n (k h)) -> keeps_files n (bind TemporaryFile k).
Proof.
  intros Hk s Hn. unfold bind, TemporaryFile.
  eapply kept_trans; [|apply Hk; [exact Hn|]].
  - eapply kept_trans; [apply (kept_new n new_file)|]. by apply kept_add_event.
  - cbn [add_event set_heap heap]. rewrite length_app. lia.
Qed.

Lemma gen_keeps_files_pull n h mk : gen_keeps_files n (pull h mk).
Proof.
  intros s _. unfold pull, get_file.
  destruct (heap s !! h) as [f|] eqn:Hh; [destruct (f_closed f)|];
    try apply kept_refl.
  cbn [snd]. eapply kept_trans; [by apply kept_seek|]. by apply kept_add_event.
Qed.

Lemma keeps_files_write_to_file n src (dst : handle) :
  n <= dst -> gen_keeps_files n src -> keeps_files n (write_to_file src dst).
Proof.
  intros Hdst Hsrc s Hn. unfold write_to_file, bind, get_file.
  destruct (heap s !! dst) as [f|]; [destruct (f_closed f)|]; try apply kept_refl.
  specialize (Hsrc s Hn). destruct (src s) as [[bs e] s1]; cbn [snd] in *.
  assert (kept n s (set_heap (<[dst:=foldl (fun f b => f_write b f) f bs]> (heap s1)) s1))
    by (eapply kept_trans; [exact Hsrc | by apply kept_above]).
  by destruct e.
Qed.

Lemma keeps_files_mkdir n p : keeps_files n (mkdir p).
Proof.
  intros s _. unfold mkdir, bind, log, modify, get_state. cbn [snd].
  assert (kept n s (add_event (EvMkdir p) s)) as Hev by (by apply kept_add_event).
  destruct (existsb _ _); cbn [raise snd]; [done|].
  eapply kept_trans; [exact Hev|]. by apply kept_quiet.
Qed.

Lemma kept_close_output n p (h : handle) s : n <= h -> kept n s (close_output p h s).
Proof.
  intros Hn. unfold close_output. destruct (heap s !! h) as [f|]; [|apply kept_refl].
  set (s1 := set_heap _ s). set (s2 := set_files _ s1).
  apply (kept_trans n s s1); [by apply kept_above|].
  apply (kept_trans n s1 s2); [by apply kept_quiet|].
  apply kept_add_event. by intros k [= <-].
Qed.

(** The handle [open] gives is new. *)
Lemma keeps_files_with_open_wb {A} n p (body : handle -> M A) :
  (forall f, n <= f -> keeps_files n (body f)) -> keeps_files n (with_open_wb p body).
Proof.
  intros Hbody s Hn. unfold with_open_wb, bind, open_wb at 1, bind, get_state.
  destruct (is_dir p s); [apply kept_refl|].
  destruct (negb _); [apply kept_refl|].
  set (sa := set_heap _ s). set (sb := set_files _ sa). set (s1 := add_event _ sb).
  assert (kept n s s1) as H1.
  { apply (kept_trans n s sa); [apply kept_new|].
    apply (kept_trans n sa sb); [by apply kept_quiet|].
    by apply kept_add_event. }
  assert (n <= length (heap s1)) as Hn1 by (destruct H1; lia).
  specialize (Hbody (length (heap s)) Hn s1 Hn1).
  destruct (body _ s1) as [r s2]; cbn [snd] in *.
  eapply kept_trans; [exact H1|]. eapply kept_trans; [exact Hbody|].
  by apply kept_close_output.
Qed.

Section ReaderKeepsFiles.

Context `{Collaborators}.

Lemma keeps_files_decompress n : keeps_files n decompress.
Proof.
  unfold decompress.
  apply keeps_files_bind; [by apply keeps_files_log|]. intros _.
  apply keeps_files_bind; [apply keeps_files_get_state|]. intros s0.
  apply keeps_files_TemporaryFile. intros dst Hdst.
  apply keeps_files_bind; [apply keeps_files_file_seek|]. intros _.
  apply keeps_files_bind; [apply keeps_files_file_seek|]. intros _.
  apply keeps_files_bind;
    [by apply keeps_files_write_to_file; [|apply gen_keeps_files_pull]|]. intros _.
  apply keeps_files_bind; [apply keeps_files_file_seek|]. intros _.
  apply keeps_files_ret.
Qed.

Lemma keeps_files_fileobj n : keeps_files n fileobj.
Proof.
  unfold fileobj.
  apply keeps_files_bind; [apply keeps_files_get_state|]. intros s0.
  destruct (negb _); [apply keeps_files_ret|].
  destruct (_decompressed_fileobj _); [apply keeps_files_ret|].
  apply keeps_files_bind; [apply keeps_files_decompress|]. intros h.
  apply keeps_files_bind; [|intros; apply keeps_files_ret].
  intros s _. by apply kept_quiet.
Qed.

Lemma gen_keeps_files_extract_entry n e m : gen_keeps_files n (extract_entry e m).
Proof.
  intros s Hn. unfold extract_entry.
  assert (keeps_files n (h <- fileobj ;; file_seek h (e_offset e) ;; fileobj)) as Hpre.
  { apply keeps_files_bind; [apply keeps_files_fileobj|]. intros h.
    apply keeps_files_bind; [apply keeps_files_file_seek|]. intros _.
    apply keeps_files_fileobj. }
  specialize (Hpre s Hn).
  destruct ((h <- fileobj ;; file_seek h (e_offset e) ;; fileobj) s) as [[h|x] s'];
    cbn [snd] in *; [|done].
  eapply kept_trans; [exact Hpre|]. apply gen_keeps_files_pull. destruct Hpre. lia.
Qed.

Lemma keeps_files_extract_entries n destdir m entries :
  keeps_files n (extract_entries destdir m entries).
Proof.
  induction entries as [|e entries IH]; cbn [extract_entries];
    [apply keeps_files_ret|].
  destruct (safejoin destdir (e_name e)) as [p|x]; [|apply keeps_files_raise].
  apply keeps_files_bind; [apply keeps_files_mkdir|]. intros _.
  apply keeps_files_bind; [|intros _; apply IH].
  apply keeps_files_with_open_wb. intros f Hf.
  by apply keeps_files_write_to_file; [|apply gen_keeps_files_extract_entry].
Qed.

Lemma keeps_files_extract n destdir m : keeps_files n (extract destdir m).
Proof.
  unfold extract. apply keeps_files_bind; [apply keeps_files_get_state|].
  intros s0. apply keeps_files_extract_entries.
Qed.

Lemma keeps_files_build_verifiers n key l acc :
  keeps_files n (build_verifiers key l acc).
Proof.
  revert acc. induction l as [|sig l IH]; intros acc; cbn [build_verifiers];
    [apply keeps_files_ret|].
  destruct (_ =? _)%N;
    [apply keeps_files_bind; [by apply keeps_files_log | intros _; apply IH]|].
  destruct (_ =? _)%N;
    [apply keeps_files_bind; [by apply keeps_files_log | intros _; apply IH]|].
  apply keeps_files_raise.
Qed.

Lemma keeps_files_finalize n i vs : keeps_files n (finalize i vs).
Proof.
  revert i. induction vs as [|v vs IH]; intros i; cbn [finalize];
    [apply keeps_files_ret|].
  apply keeps_files_bind; [by apply keeps_files_log|]. intros _.
  destruct (v_verify v) as [[]|[]]; try apply keeps_files_raise;
    [apply IH | apply keeps_files_ret].
Qed.

Lemma keeps_files_verify n key : keeps_files n (verify key).
Proof.
  unfold verify.
  apply keeps_files_bind; [apply keeps_files_get_state|]. intros s0.
  destruct (signatures _) as [sh|]; [|apply keeps_files_ret].
  destruct (sigs sh) as [|sig0 l0] eqn:Hl; [apply keeps_files_ret|]. rewrite <- Hl.
  apply keeps_files_bind; [apply keeps_files_build_verifiers|]. intros vs.
  apply keeps_files_bind;
    [destruct (_ =? _); [apply keeps_files_ret | apply keeps_files_raise]|]. intros _.
  apply keeps_files_bind; [apply keeps_files_fileobj|]. intros h.
  intros s Hn.
  pose proof (gen_keeps_files_pull n h
                (fun f => get_signature_data f (filesize sh)) s Hn) as Hp.
  destruct (pull h _ s) as [[bs [x|]] s2]; cbn [snd] in *; [done|].
  eapply kept_trans; [exact Hp|]. apply keeps_files_finalize. destruct Hp. lia.
Qed.

End ReaderKeepsFiles.

(** ** Disposal of the reader *)

Lemma closes_app h tr1 tr2 : closes h (tr1 ++ tr2) = closes h tr1 + closes h tr2.
Proof. unfold closes. by rewrite List.filter_app, length_app. Qed.

Lemma closes_none (h : handle) evs :
  (forall k : handle, EvClose k ∈ evs -> h <> k) -> closes h evs = 0.
Proof.
  unfold closes. induction evs as [|ev evs IH]; intros Hevs; [done|].
  cbn [List.filter].
  assert (is_close h ev = false) as ->.
  { destruct ev; try done. cbn. apply Nat.eqb_neq, Hevs. by left. }
  apply IH. intros k Hk. apply Hevs. by right.
Qed.

(** What [kept] says of a file object that is open. *)
Lemma kept_open n s s' (h : handle) f :
  kept n s s' -> h < n -> heap s !! h = Some f -> f_closed f = false ->
  ~ released h s'
  /\ closes h (trace s') = closes h (trace s)
  /\ exists f', heap s' !! h = Some f' /\ f_data f' = f_data f.
Proof.
  intros (_ & Hk & evs & Ht & Hevs) Hn Hh Hc.
  destruct (Hk h f Hn Hh) as (f' & Hh' & Hd' & Hc'). split; [|split].
  - intros (g & Hg & Hgc). rewrite Hh' in Hg. injection Hg as <-. congruence.
  - rewrite Ht, closes_app, (closes_none h evs); [lia|].
    intros k Hin%Hevs. lia.
  - by exists f'.
Qed.

Section Disposal.

Context `{Collaborators}.

Lemma reader_call_kept n s s' :
  n <= length (heap s) -> reader_call s s' -> kept n s s'.
Proof.
  intros Hn [| | | |e m|destdir m|key].
  - by apply keeps_files_fileobj.
  - by apply keeps_files_decompress.
  - apply kept_refl.
  - apply kept_refl.
  - by apply gen_keeps_files_extract_entry.
  - by apply keeps_files_extract.
  - by apply keeps_files_verify.
Qed.

Lemma reader_calls_kept n s s' :
  n <= length (heap s) -> reader_calls s s' -> kept n s s'.
Proof.
  intros Hn Hcalls. induction Hcalls as [s|s s1 s2 Hcall _ IH]; [apply kept_refl|].
  pose proof (reader_call_kept n s s1 Hn Hcall) as Hk.
  eapply kept_trans; [exact Hk|]. apply IH. destruct Hk. lia.
Qed.

(** C9, as amended: [__exit__] does nothing.  It returns [None] and leaves
    the state as it is, so a [with] block is its body and nothing more,
    whether the body returns or raises; a spool that is open when the
    reader is disposed is still open afterwards, and no [close()] was
    called on it.  Nor does any other method release it: after any
    sequence of calls of the reader's methods ([fileobj], [decompress],
    [__enter__], [__exit__], [extract_entry], [extract], [verify]),
    returning or raising, a file object that was open (the spool, the raw
    stream) is open, holds the bytes it held, and [close()] was not called
    on it. *)
Theorem exit_releases_nothing (s : state) :
  __exit__ s = (Ok tt, s)
  /\ (forall A (body : MarReader -> M A), with_reader body s = body (self s) s)
  /\ (forall h f,
        _decompressed_fileobj (self s) = Some h ->
        heap s !! h = Some f -> f_closed f = false ->
        ~ released h (__exit__ s).2
        /\ closes h (trace (__exit__ s).2) = closes h (trace s))
  /\ (forall (h : handle) f s',
        heap s !! h = Some f -> f_closed f = false ->
        reader_calls s s' ->
        ~ released h s'
        /\ closes h (trace s') = closes h (trace s)
        /\ exists f', heap s' !! h = Some f' /\ f_data f' = f_data f).
Proof.
  split; [done|]. split; [|split].
  - intros A body. unfold with_reader, __enter__, __exit__.
    cbv [bind get_state ret]. by destruct (body (self s) s).
  - intros h f _ Hh Hc. split; [|done].
    intros (f' & Hh' & Hc'). change (heap s !! h = Some f') in Hh'.
    rewrite Hh in Hh'. injection Hh' as <-. congruence.
  - intros h f s' Hh Hc Hcalls.
    apply (kept_open (length (heap s)) s s' h f); [|by eapply lookup_lt_Some|done..].
    by apply reader_calls_kept.
Qed.

End Disposal.

(** * Further properties of the reader *)

(** ** How often the archive is decompressed *)














Section ExtractCount.

Context `{Collaborators}.









End ExtractCount.

(** ** What the read path leaves alone, and what [extract] closes *)

Lemma disk_set_heap hp s : disk (set_heap hp s) = disk s.
Proof. done. Qed.

Lemma disk_add_event ev s : disk (add_event ev s) = disk s.
Proof. done. Qed.

Lemma kept_all s s' (k : handle) f :
  kept (length (heap s)) s s' -> heap s !! k = Some f ->
  exists f', heap s' !! k = Some f' /\ f_data f' = f_data f /\ f_closed f' = f_closed f.
Proof. intros (_ & Hk & _) Hf. eapply Hk; [by eapply lookup_lt_Some | done]. Qed.

Lemma close_output_open p (h : handle) s g :
  heap s !! h = Some g ->
  close_output p h s =
    add_event (EvClose h)
      (set_files ((p, f_data g) :: files s)
         (set_heap (<[h := File (f_data g) (f_pos g) true]> (heap s)) s)).
Proof. intros Hg. unfold close_output. by rewrite Hg. Qed.

Section ReadsOnly.

Context `{Collaborators}.

Lemma keeps_disk_fileobj : keeps disk fileobj.
Proof.
  unfold fileobj.
  apply keeps_bind; [apply keeps_get_state|]. intros s0.
  destruct (negb _); [apply keeps_ret|].
  destruct (_decompressed_fileobj _); [apply keeps_ret|].
  apply keeps_bind;
    [apply keeps_decompress; [apply disk_set_heap | apply disk_add_event]|].
  intros h. apply keeps_bind; [done | intros; apply keeps_ret].
Qed.

Lemma keeps_disk_build_verifiers key l acc : keeps disk (build_verifiers key l acc).
Proof.
  revert acc. induction l as [|sig l IH]; intros acc; cbn [build_verifiers];
    [apply keeps_ret|].
  destruct (_ =? _)%N;
    [apply keeps_bind; [by apply keeps_log | intros _; apply IH]|].
  destruct (_ =? _)%N;
    [apply keeps_bind; [by apply keeps_log | intros _; apply IH]|].
  apply keeps_raise.
Qed.

Lemma keeps_disk_finalize i vs : keeps disk (finalize i vs).
Proof.
  revert i. induction vs as [|v vs IH]; intros i; cbn [finalize]; [apply keeps_ret|].
  apply keeps_bind; [by apply keeps_log|]. intros _.
  destruct (v_verify v) as [[]|[]]; try apply keeps_raise;
    [apply IH | apply keeps_ret].
Qed.

Lemma keeps_disk_verify key : keeps disk (verify key).
Proof.
  unfold verify.
  apply keeps_bind; [apply keeps_get_state|]. intros s0.
  destruct (signatures _) as [sh|]; [|apply keeps_ret].
  destruct (sigs sh) as [|sig0 l0] eqn:Hl; [apply keeps_ret|]. rewrite <- Hl.
  apply keeps_bind; [apply keeps_disk_build_verifiers|]. intros vs.
  apply keeps_bind; [destruct (_ =? _); [apply keeps_ret | apply keeps_raise]|].
  intros _. apply keeps_bind; [apply keeps_disk_fileobj|]. intros h s.
  pose proof (gen_keeps_pull disk disk_set_heap disk_add_event h
                (fun f => get_signature_data f (filesize sh)) s) as Hp.
  destruct (pull h _ s) as [[bs [x|]] s2]; cbn [snd] in *; [done|].
  by rewrite keeps_disk_finalize.
Qed.

(** X8: [verify] only reads.  Whatever the key and however it ends, the
    files and directories on disk are the same, no file object is removed,
    and every file object that existed has the bytes it had and is open or
    closed as it was. *)
Theorem verify_reads_only (verify_key : Key) (s : state) :
  let s' := (verify verify_key s).2 in
  files s' = files s /\ dirs s' = dirs s
  /\ length (heap s) <= length (heap s')
  /\ forall (k : handle) f, heap s !! k = Some f ->
       exists f', heap s' !! k = Some f'
                  /\ f_data f' = f_data f /\ f_closed f' = f_closed f.
Proof.
  intros s'. pose proof (keeps_disk_verify verify_key s) as [= Hf Hd].
  pose proof (keeps_files_verify (length (heap s)) verify_key s (le_n _)) as Hk.
  split; [done|]. split; [done|]. split; [by destruct Hk|].
  intros k f. by apply kept_all.
Qed.

(** X7: [extract_entry] only reads.  Whatever the mode and however it
    ends, the files and directories on disk are the same, no file object
    is removed, and every file object that existed has the bytes it had
    and is open or closed as it was. *)
Theorem extract_entry_reads_only (e : index_entry) (m : Decompression.t) (s : state) :
  let s' := (extract_entry e m s).2 in
  files s' = files s /\ dirs s' = dirs s
  /\ length (heap s) <= length (heap s')
  /\ forall (k : handle) f, heap s !! k = Some f ->
       exists f', heap s' !! k = Some f'
                  /\ f_data f' = f_data f /\ f_closed f' = f_closed f.
Proof.
  intros s'. destruct (gen_safe_extract_entry e m s) as [(Hf & Hd & _) _].
  pose proof (gen_keeps_files_extract_entry (length (heap s)) e m s (le_n _)) as Hk.
  split; [done|]. split; [done|]. split; [by destruct Hk|].
  intros k f. by apply kept_all.
Qed.

Lemma entry_body_outputs p e m s :
  let run := with_open_wb p (fun f => write_to_file (extract_entry e m) f) s in
  exists evs,
    trace run.2 = trace s ++ evs
    /\ forall q (h : handle), EvOpen q h ∈ evs ->
         h = length (heap s) /\ released h run.2 /\ EvClose h ∈ evs.
Proof.
  unfold with_open_wb, bind, open_wb at 1 2, bind, get_state.
  assert (exists evs, trace s = trace s ++ evs
            /\ forall q (h : handle), EvOpen q h ∈ evs ->
                 h = length (heap s) /\ released h s /\ EvClose h ∈ evs) as Hnone.
  { exists []. rewrite app_nil_r. split; [done|]. by intros q h ?%elem_of_nil. }
  destruct (is_dir p s); [exact Hnone|].
  destruct (negb _); [exact Hnone|]. clear Hnone.
  set (f := length (heap s)). set (s1 := add_event _ _).
  destruct (safe_write_to_file io_event (extract_entry e m) f
              (gen_safe_extract_entry e m) s1) as [(_ & _ & evs & Ht & Hev) _].
  assert (f <= length (heap s1)) as Hf1
    by (subst s1 f; cbn [add_event set_files set_heap heap]; rewrite length_app; lia).
  pose proof (keeps_files_write_to_file f (extract_entry e m) f (le_n _)
                (gen_keeps_files_extract_entry f e m) s1 Hf1) as [Hlen _].
  destruct (write_to_file (extract_entry e m) f s1) as [r s2]; cbn [fst snd] in *.
  assert (f < length (heap s2)) as Hlt.
  { subst s1 f. cbn [add_event set_files set_heap heap] in Hlen.
    rewrite length_app in Hlen. cbn [length] in Hlen. lia. }
  destruct (lookup_lt_is_Some_2 _ _ Hlt) as [g Hg].
  rewrite (close_output_open p f s2 g Hg).
  exists ([EvOpen p f] ++ evs ++ [EvClose f]). split.
  - cbn [add_event set_files set_heap trace]. rewrite Ht. subst s1.
    cbn [add_event set_files set_heap trace]. by rewrite <- !app_assoc.
  - intros q h Hin. assert (h = f) as ->.
    { apply elem_of_app in Hin as [Hin|Hin].
      - apply list_elem_of_singleton in Hin. by injection Hin.
      - apply elem_of_app in Hin as [Hin|Hin].
        + by destruct (proj1 (Forall_forall _ _) Hev _ Hin) as [|[]].
        + by apply list_elem_of_singleton in Hin. }
    split; [done|]. split.
    + eexists. cbn [add_event set_files set_heap heap].
      by rewrite list_lookup_insert_eq.
    + rewrite !elem_of_app. right. right. by apply list_elem_of_singleton.
Qed.

Lemma extract_entries_outputs destdir m entries s :
  exists evs,
    trace (extract_entries destdir m entries s).2 = trace s ++ evs
    /\ forall q (h : handle), EvOpen q h ∈ evs ->
         length (heap s) <= h
         /\ released h (extract_entries destdir m entries s).2
         /\ EvClose h ∈ evs.
Proof.
  revert s. induction entries as [|e entries IH]; intros s.
  - exists []. cbn. rewrite app_nil_r. split; [done|]. by intros q h ?%elem_of_nil.
  - cbn [extract_entries].
    destruct (safejoin destdir (e_name e)) as [p|x].
    2: { exists []. cbn. rewrite app_nil_r. split; [done|]. by intros q h ?%elem_of_nil. }
    unfold bind at 1 2, mkdir at 1 2, bind, log, modify, get_state.
    cbn [fst snd].
    set (s0 := add_event (EvMkdir (dirname p)) s).
    destruct (existsb _ _).
    { exists [EvMkdir (dirname p)]. cbn. split; [done|].
      intros q h Hin. by apply list_elem_of_singleton in Hin. }
    cbn [raise fst snd]. set (s1 := set_dirs _ s0).
    destruct (entry_body_outputs p e m s1) as (evs1 & Ht1 & Ho1).
    pose proof (keeps_files_with_open_wb (length (heap s1)) p
                  (fun f => write_to_file (extract_entry e m) f)
                  ltac:(intros f Hf; by apply keeps_files_write_to_file;
                          [|apply gen_keeps_files_extract_entry])
                  s1 (le_n _)) as [Hlen _].
    destruct (with_open_wb p _ s1) as [[n|x] s2]; cbn [fst snd] in *.
    + destruct (IH s2) as (evs2 & Ht2 & Ho2).
      pose proof (keeps_files_extract_entries (length (heap s2)) destdir m entries
                    s2 (le_n _)) as Hk.
      exists ([EvMkdir (dirname p)] ++ evs1 ++ evs2). split.
      * rewrite Ht2, Ht1. subst s1 s0. cbn [set_dirs add_event trace].
        by rewrite <- !app_assoc.
      * intros q h Hin. apply elem_of_app in Hin as [Hin|Hin];
          [by apply list_elem_of_singleton in Hin|].
        apply elem_of_app in Hin as [Hin|Hin].
        -- destruct (Ho1 q h Hin) as (-> & (g & Hg & Hc) & Hcl).
           split; [done|]. split.
           ++ destruct (kept_all _ _ _ _ Hk Hg) as (g' & Hg' & _ & Hc').
              exists g'. split; [done | congruence].
           ++ rewrite !elem_of_app. right. by left.
        -- destruct (Ho2 q h Hin) as (Hh & Hr & Hcl).
           split; [subst s1 s0; cbn [set_dirs add_event heap] in Hlen; lia|].
           split; [done|]. rewrite !elem_of_app. right. by right.
    + exists ([EvMkdir (dirname p)] ++ evs1). split.
      * rewrite Ht1. subst s1 s0. cbn [set_dirs add_event trace].
        by rewrite <- !app_assoc.
      * intros q h Hin. apply elem_of_app in Hin as [Hin|Hin];
          [by apply list_elem_of_singleton in Hin|].
        destruct (Ho1 q h Hin) as (-> & Hr & Hcl).
        split; [done|]. split; [done|]. rewrite elem_of_app. by right.
Qed.

(** X4: every file [extract] opens for writing is a new file object, and
    it is closed by the time [extract] returns or raises: the [with]
    statement closes it on both paths. *)
Theorem extract_closes_outputs (destdir : path) (m : Decompression.t) (s : state) :
  let s' := (extract destdir m s).2 in
  exists evs,
    trace s' = trace s ++ evs
    /\ forall p (h : handle), EvOpen p h ∈ evs ->
         length (heap s) <= h /\ released h s' /\ EvClose h ∈ evs.
Proof.
  unfold extract, bind, get_state. apply extract_entries_outputs.
Qed.

End ReadsOnly.

(** ** What [extract] writes *)

Lemma bind_ok_inv {A B} (m : M A) (k : A -> M B) s b s' :
  bind m k s = (Ok b, s') -> exists a s1, m s = (Ok a, s1) /\ k a s1 = (Ok b, s').
Proof. unfold bind. destruct (m s) as [[a|x] s1]; [eauto | done]. Qed.


Lemma read_disk_files q s s' : files s' = files s -> read_disk q s' = read_disk q s.
Proof. unfold read_disk. by intros ->. Qed.





Section ExtractWrites.

Context `{Collaborators}.

Lemma decompress_handle s h s1 : decompress s = (Ok h, s1) -> h = length (heap s).
Proof.
  unfold decompress. intros Hrun.
  apply bind_ok_inv in Hrun as ([] & sa & [= <-] & Hrun).
  apply bind_ok_inv in Hrun as (s0 & sb & [= <- <-] & Hrun).
  apply bind_ok_inv in Hrun as (dst & sc & [= <- <-] & Hrun).
  apply bind_ok_inv in Hrun as ([] & sd & _ & Hrun).
  apply bind_ok_inv in Hrun as ([] & se & _ & Hrun).
  apply bind_ok_inv in Hrun as (n & sf & _ & Hrun).
  apply bind_ok_inv in Hrun as ([] & sg & _ & Hrun).
  by injection Hrun as <- _.
Qed.

(** An access from a state whose handles are allocated gives one of them
    or the spool it has just made. *)
Lemma fileobj_handle s h s1 :
  allocated s -> fileobj s = (Ok h, s1) ->
  (h < length (heap s) /\ settled h s) \/ h = length (heap s).
Proof.
  intros [Hraw Hdec] Hfo. destruct (is_compressed (self s)) eqn:Hc.
  - destruct (_decompressed_fileobj (self s)) as [h0|] eqn:Hd.
    + rewrite (fileobj_cached s h0) in Hfo by done. injection Hfo as <- <-.
      left. split; [by apply Hdec | by right].
    + rewrite fileobj_fill in Hfo by done.
      destruct (decompress s) as [[h0|x] s0] eqn:Hrun; [|done].
      injection Hfo as <- _. right. by eapply decompress_handle.
  - rewrite fileobj_uncompressed in Hfo by done. injection Hfo as <- <-.
    left. split; [done | by left].
Qed.



Lemma entry_stream_data e m g g' :
  f_data g' = f_data g -> f_closed g' = f_closed g ->
  entry_stream e m g' = entry_stream e m g.
Proof. intros Hd Hc. unfold entry_stream, f_seek. by rewrite Hd, Hc. Qed.




End ExtractWrites.


Section ExtractWritten.

Context `{Collaborators}.




End ExtractWritten.

(** ** The verdict of [verify] *)


Section VerifyOutcomes.

Context `{Collaborators}.

(** The three ways through the first part of [verify]. *)
Lemma verify_outcomes key s :
  (verify key s = (Ok false, s)
   /\ (signatures (mardata (self s)) = None
       \/ exists sh, signatures (mardata (self s)) = Some sh /\ sigs sh = []))
  \/ (exists id s', verify key s = (Raise (UnsupportedAlgorithm id), s'))
  \/ (exists sh, signatures (mardata (self s)) = Some sh /\ sigs sh <> []
                 /\ Forall (fun sig => supported (algorithm_id sig)) (sigs sh)).
Proof.
  destruct (signatures (mardata (self s))) as [sh|] eqn:Hsig.
  2: { left. split; [|by left]. unfold verify, bind, get_state. by rewrite Hsig. }
  destruct (sigs sh) as [|sig0 l0] eqn:Hl.
  { left. split; [|right; by exists sh].
    unfold verify, bind, get_state. by rewrite Hsig, Hl. }
  right. assert (sigs sh <> []) as Hne by (by rewrite Hl).
  destruct (supported_cases (sigs sh)) as [Hall | Hex]; [right; by exists sh|].
  left. destruct (build_verifiers_unsupported key (sigs sh) [] s Hex)
    as (sig & evs & _ & _ & Hb & _).
  exists (algorithm_id sig), (with_events evs s).
  unfold verify, bind at 1, get_state. rewrite Hsig. rewrite Hl in Hb. rewrite Hl.
  unfold bind at 1. by rewrite Hb.
Qed.


(** X11: the assertion [len(verifiers) == len(self.mardata.signatures.sigs)]
    of [verify] cannot fail: unless a verifier itself raises AssertionError
    at finalization, [verify] never raises it. *)
Theorem verify_assertion_holds (verify_key : Key) (s : state) :
  (forall v, v_verify v <> Raise AssertionError) ->
  (verify verify_key s).1 <> Raise AssertionError.
Proof.
  intros Hv.
  destruct (verify_outcomes verify_key s)
    as [[-> _] | [(id & s' & ->) | (sh & Hsig & Hne & Hall)]]; [done | done|].
  rewrite (verify_run _ _ _ Hsig Hne Hall).
  destruct (safe_fileobj
              (with_events (map (fun sig => EvMakeVerifier (algorithm_id sig)) (sigs sh)) s))
    as [_ Hexn0].
  destruct (fileobj _) as [[h|x] s1]; cbn [fst] in *.
  2: { intros [= ->]. by apply (Hexn0 AssertionError). }
  destruct (gen_safe_pull io_event h (fun f => get_signature_data f (filesize sh))
              ltac:(by right) s1) as [_ Hexn1].
  destruct (pull h _ s1) as [[bs [x|]] s2]; cbn [fst snd] in *.
  { intros [= ->]. by apply (Hexn1 AssertionError). }
  pose proof (finalize_outcome 0
                (update_all (map (make_verifier verify_key) (sigs sh)) bs) s2) as Hout.
  destruct (finalize _ _ _) as [[b|e] s3]; cbn [fst] in *; [done|].
  destruct Hout as (_ & v & _ & Hr). intros [= ->]. by apply (Hv v).
Qed.


(** X9: the verifiers are finalized in the order of the signature
    records, and the first that does not accept decides: if it reports
    InvalidSignature, [verify] returns [False]; if it raises anything else,
    [verify] raises that, also when a later verifier would have reported an
    invalid signature. *)
Theorem verify_first_failure_decides (verify_key : Key) (s : state)
    (sh : sigs_header) (bs : list bytes) (k : nat) (v : verifier) (e : exn) :
  signatures (mardata (self s)) = Some sh ->
  Forall (fun sig => supported (algorithm_id sig)) (sigs sh) ->
  scanned s sh bs ->
  let vs := update_all (map (make_verifier verify_key) (sigs sh)) bs in
  vs !! k = Some v ->
  (forall j w, j < k -> vs !! j = Some w -> v_verify w = Ok tt) ->
  v_verify v = Raise e ->
  (verify verify_key s).1
  = match e with InvalidSignature => Ok false | _ => Raise e end.
Proof.
  intros Hsig Hall (h & s1 & f & Hfo & Hh & Hc & He & ->) vs Hk Hbefore Hv.
  assert (sigs sh <> []) as Hne.
  { intros Hnil. apply lookup_lt_Some in Hk. subst vs.
    rewrite update_all_length, Hnil in Hk. cbn in Hk. lia. }
  rewrite (verify_run _ _ _ Hsig Hne Hall), Hfo, (pull_ok _ _ f) by done.
  rewrite He. cbn [fmap option_fmap option_map].
  by apply (finalize_first_failure _ _ _ k v).
Qed.



End VerifyOutcomes.

(** ** Order of extraction, and construction *)

Section Construction.

Context `{Collaborators}.

Lemma extract_entries_app destdir m l1 l2 s :
  extract_entries destdir m (l1 ++ l2) s
  = bind (extract_entries destdir m l1) (fun _ => extract_entries destdir m l2) s.
Proof.
  revert s. induction l1 as [|e l1 IH]; intros s; [done|].
  cbn [app extract_entries].
  destruct (safejoin destdir (e_name e)) as [p|x]; [|done].
  unfold bind.
  destruct (mkdir (dirname p) s) as [[[]|x] s1]; [|done].
  destruct (with_open_wb p _ s1) as [[n|x] s2]; [|done].
  by rewrite IH.
Qed.

(** X5: [extract] takes the entries in the order of the index and does
    not look ahead: when the entries before [e] were extracted and
    [safejoin] refuses the name of [e], [extract] raises that error in the
    state the earlier entries left.  What was written stays; the entries
    after [e] are not touched. *)
Theorem extract_stops_at_rejected_name (destdir : path) (m : Decompression.t)
    (s s1 : state) (l1 l2 : list index_entry) (e : index_entry) (x : exn) :
  index_entries (mardata (self s)) = l1 ++ e :: l2 ->
  extract_entries destdir m l1 s = (Ok tt, s1) ->
  safejoin destdir (e_name e) = Raise x ->
  extract destdir m s = (Raise x, s1).
Proof.
  intros Hentries Hl1 Hjoin. unfold extract, bind at 1, get_state.
  rewrite Hentries, extract_entries_app. unfold bind. rewrite Hl1.
  cbn [extract_entries]. by rewrite Hjoin.
Qed.

(** X6: [extract_entry] seeks before it reads, so what it yields for an
    entry does not depend on what was extracted before: on a reader settled
    on an open stream, the blocks and the ending for [e] after another
    entry was extracted are those for [e] extracted first. *)
Theorem extract_entry_any_order (e e' : index_entry) (m m' : Decompression.t)
    (s : state) (h : handle) (g : file) :
  settled h s -> heap s !! h = Some g -> f_closed g = false ->
  (extract_entry e m (extract_entry e' m' s).2).1 = (extract_entry e m s).1.
Proof.
  intros Hs Hg Hc.
  rewrite (extract_entry_run e' m' s h s g) by (done || by apply settled_fileobj).
  rewrite (extract_entry_run e m s h s g) by (done || by apply settled_fileobj).
  cbn [fst snd]. set (g' := f_seek _ g). set (s' := add_event _ _).
  assert (settled h s') as Hs' by done.
  rewrite (extract_entry_run e m s' h s' g').
  - cbn [fst]. by rewrite (entry_stream_data e m g g').
  - by apply settled_fileobj.
  - subst s'. cbn [add_event set_heap heap]. apply list_lookup_insert_eq.
    by eapply lookup_lt_Some.
  - done.
Qed.

(** X13: [__init__] parses the stream and nothing more.  When it returns,
    the reader holds the file it was given and the parsed header, with
    [is_compressed] taken from the header and no spool; nothing was
    decompressed, no file object was made, the disk is unchanged.  The
    first access to [fileobj] then gives that same file on an archive that
    is not compressed, and on a compressed one a new file object, which it
    caches. *)
Theorem init_is_lazy (fileobj0 : handle) (s s' : state) :
  __init__ fileobj0 s = (Ok tt, s') ->
  (exists f md f',
     heap s !! fileobj0 = Some f /\ f_closed f = false
     /\ parse_stream f = (Ok md, f')
     /\ self s' = Reader fileobj0 None md (mar_is_compressed md)
     /\ heap s' = <[fileobj0 := f']> (heap s))
  /\ trace s' = trace s /\ files s' = files s /\ dirs s' = dirs s
  /\ allocated s'
  /\ (is_compressed (self s') = false -> fileobj s' = (Ok fileobj0, s'))
  /\ (is_compressed (self s') = true ->
      forall h s'', fileobj s' = (Ok h, s'') ->
        h = length (heap s) /\ h <> fileobj0
        /\ _decompressed_fileobj (self s'') = Some h).
Proof.
  unfold __init__, bind at 1, get_file.
  destruct (heap s !! fileobj0) as [f|] eqn:Hf; [destruct (f_closed f) eqn:Hc|];
    [done | | done].
  destruct (parse_stream f) as [[md|x] f'] eqn:Hparse;
    unfold bind, put_file, modify, raise; [|done].
  intros [= <-]. set (s1 := set_self _ _).
  assert (self s1 = Reader fileobj0 None md (mar_is_compressed md)) as Hself by done.
  assert (heap s1 = <[fileobj0 := f']> (heap s)) as Hheap by done.
  assert (fileobj0 < length (heap s)) as Hlt by (by eapply lookup_lt_Some).
  split; [by exists f, md, f'|]. split; [done|]. split; [done|]. split; [done|].
  split.
  { split; rewrite Hself; [|done].
    rewrite Hheap, length_insert. exact Hlt. }
  split.
  - intros Hcomp. by apply fileobj_uncompressed.
  - intros Hcomp h s'' Hfo. rewrite fileobj_fill in Hfo by done.
    destruct (decompress s1) as [[h0|x] s0] eqn:Hdec; [|done].
    injection Hfo as <- <-. apply decompress_handle in Hdec as ->.
    rewrite Hheap, length_insert. split; [done|]. split; [lia | done].
Qed.

End Construction.

(** * The theorems at work on the concrete instance *)

(** C3 on the compressed toy archive, which has no signature block. *)
Lemma verify_no_signatures_witness :
  signatures (mardata (self Toy.packed_state)) = None
  /\ @verify Toy.collaborators (Toy.b "k1") Toy.packed_state
     = (Ok false, Toy.packed_state).
Proof.
  split; [reflexivity|].
  apply (@verify_no_signatures Toy.collaborators). left. reflexivity.
Defined.

(** C4 on the archive whose second record has algorithm id 7. *)
Lemma verify_unsupported_algorithm_witness :
  exists sig evs,
    sig ∈ sigs Toy.unknown_algo_header
    /\ ~ @supported Toy.collaborators (algorithm_id sig)
    /\ @verify Toy.collaborators (Toy.b "k1") Toy.unknown_algo_state
       = (Raise (UnsupportedAlgorithm (algorithm_id sig)),
          State (self Toy.unknown_algo_state) (heap Toy.unknown_algo_state)
                (files Toy.unknown_algo_state) (dirs Toy.unknown_algo_state)
                (trace Toy.unknown_algo_state ++ evs))
    /\ Forall is_make_verifier evs.
Proof.
  apply (@verify_unsupported_algorithm Toy.collaborators); [reflexivity|].
  apply Exists_cons_tl, Exists_cons_hd.
  intros [Hid | Hid]; vm_compute in Hid; discriminate Hid.
Defined.

(** C1 on the archive with a matching and a non-matching signature: the
    second verifier reports an invalid signature and the call returns
    [False]. *)
Lemma verify_invalid_signature_is_false_witness :
  (@verify Toy.collaborators (Toy.b "k1") Toy.two_sigs_state).1 = Ok false.
Proof.
  destruct (@verify_invalid_signature_is_false Toy.collaborators (Toy.b "k1")
              Toy.two_sigs_state) as (_ & (evs & Htrace & Hfalse) & _).
  apply (Hfalse 1).
  vm_compute in Htrace. rewrite <- Htrace.
  do 4 apply list_elem_of_further. apply list_elem_of_here.
Defined.

(** C5 on the compressed toy archive: after the first access three more
    accesses give the cached spool and change nothing. *)
Lemma fileobj_cache_memoized_witness :
  let s1 := (@fileobj Toy.collaborators Toy.packed_state).2 in
  _decompressed_fileobj (self s1) = Some 1
  /\ @access_times Toy.collaborators 3 s1 = ([Ok 1; Ok 1; Ok 1], s1).
Proof.
  destruct (@fileobj_cache_memoized Toy.collaborators Toy.packed_state)
    as (_ & Hcompressed & _).
  destruct (Hcompressed eq_refl 1 (@fileobj Toy.collaborators Toy.packed_state).2
              eq_refl) as (Hcached & _ & Hagain).
  split; [exact Hcached | exact (Hagain 3)].
Defined.

(** C6 on the plain toy archive: the entry of three bytes at offset 8. *)
Lemma extract_entry_none_exact_witness :
  0 < @block_size Toy.collaborators
  /\ concat (@extract_entry Toy.collaborators (IndexEntry "a.txt" 8 3)
               Decompression.none Toy.plain_state).1.1
     = Toy.b "abc"
  /\ (@extract_entry Toy.collaborators (IndexEntry "a.txt" 8 3)
        Decompression.none Toy.plain_state).1.2 = None.
Proof.
  assert (0 < @block_size Toy.collaborators) as Hbs by (vm_compute; lia).
  split; [exact Hbs|].
  pose proof (@extract_entry_none_exact Toy.collaborators (IndexEntry "a.txt" 8 3)
                Toy.plain_state Toy.plain_state 0
                (File (Toy.b "MAR1headabcBwxyz") 0 false)
                Hbs eq_refl eq_refl eq_refl) as Hthm.
  cbv zeta in Hthm.
  destruct (@extract_entry Toy.collaborators (IndexEntry "a.txt" 8 3)
              Decompression.none Toy.plain_state) as [[bl ending] s2].
  destruct Hthm as (Hbytes & Hending & _).
  split; [exact Hbytes | exact Hending].
Defined.

(** C7 on the compressed toy archive: seven bytes from offset 4 go through
    the filter, and [decompress] returns the new spool. *)
Lemma decompress_fixed_codec_witness :
  0 < @block_size Toy.collaborators
  /\ content (takeexactly (file_iter (@block_size Toy.collaborators)
                             (f_seek 4 (File (Toy.b "MAR1Xabcdef....") 0 false))) 7)
     = Toy.b "Xabcdef"
  /\ (@decompress Toy.collaborators Toy.packed_state).1 = Ok 1.
Proof.
  assert (0 < @block_size Toy.collaborators) as Hbs by (vm_compute; lia).
  split; [exact Hbs|].
  destruct (@decompress_fixed_codec Toy.collaborators Toy.packed_state
              (File (Toy.b "MAR1Xabcdef....") 0 false) Hbs eq_refl eq_refl)
    as (Hfed & _ & _ & _ & Hrun & _).
  split; [exact Hfed|].
  rewrite Hrun. reflexivity.
Defined.

(** C10 on the compressed toy archive: the spool holds four zero bytes and
    then the six decompressed bytes; and on the signed compressed archive
    [verify] scans the spool with the stored [filesize] of ten bytes and
    returns [True]. *)
Lemma decompress_keeps_offsets_witness :
  (exists data,
     heap (@decompress Toy.collaborators Toy.packed_state).2 !! 1
       = Some (File data 0 false)
     /\ data = replicate 4 x00 ++ Toy.b "abcdef"
     /\ data !! (4 + 2) = Toy.b "abcdef" !! 2)
  /\ (@verify Toy.collaborators (Toy.b "k1")
        (@fileobj Toy.collaborators Toy.packed_signed_state).2).1 = Ok true.
Proof.
  destruct (@decompress_keeps_offsets Toy.collaborators Toy.packed_state
              (File (Toy.b "MAR1Xabcdef....") 0 false) eq_refl eq_refl)
    as (Hspool & _ & _ & Hverify).
  split.
  - destruct (Hspool 1 (@decompress Toy.collaborators Toy.packed_state).2 eq_refl)
      as (data & Hh & Hdata & _ & Hat & _).
    exists data. split; [exact Hh|]. split; [exact Hdata | exact (Hat 2)].
  - destruct (Hverify (@fileobj Toy.collaborators Toy.packed_signed_state).2 1
                (File (replicate 4 x00 ++ Toy.b "abcdef") 0 false)
                (SigsHeader 10
                   [SigEntry 1 (Toy.b "k1" ++ replicate 4 x00 ++ Toy.b "abcdef")])
                (Toy.b "k1")) as [_ Htrue].
    + right. split; reflexivity.
    + vm_compute. reflexivity.
    + reflexivity.
    + reflexivity.
    + intros Hnil. discriminate Hnil.
    + constructor; [left; reflexivity | constructor].
    + apply Htrue; [vm_compute; reflexivity|].
      constructor; [vm_compute; reflexivity | constructor].
Defined.


(** C8 on the compressed toy archive: with mode [xz] the entry of three
    bytes at offset 4 of the spool comes out as it is. *)
Lemma extract_entry_xz_is_none_witness :
  0 < @block_size Toy.collaborators
  /\ concat (@extract_entry Toy.collaborators (IndexEntry "a.txt" 4 3)
               Decompression.xz Toy.packed_state).1.1
     = Toy.b "abc"
  /\ (@extract_entry Toy.collaborators (IndexEntry "a.txt" 4 3)
        Decompression.xz Toy.packed_state).1.2 = None.
Proof.
  assert (0 < @block_size Toy.collaborators) as Hbs by (vm_compute; lia).
  split; [exact Hbs|].
  destruct (@extract_entry_xz_is_none Toy.collaborators (IndexEntry "a.txt" 4 3)
              Toy.packed_state) as [_ Hbytes].
  pose proof (Hbytes Hbs (@fileobj Toy.collaborators Toy.packed_state).2 1
                (File (replicate 4 x00 ++ Toy.b "abcdef") 0 false)
                eq_refl eq_refl eq_refl) as Hthm.
  cbv zeta in Hthm.
  destruct (@extract_entry Toy.collaborators (IndexEntry "a.txt" 4 3)
              Decompression.xz Toy.packed_state) as [[bl ending] s2].
  destruct Hthm as (Hb & Hending & _).
  split; [exact Hb | exact Hending].
Defined.

(** C9 on the compressed toy archive: the spool made by the first access
    is still open after an entry was extracted, the archive was extracted
    into a directory and the reader was left. *)
Lemma exit_releases_nothing_witness :
  let s1 := (@fileobj Toy.collaborators Toy.packed_state).2 in
  let s2 := (@extract_entry Toy.collaborators (IndexEntry "a.txt" 4 3)
               Decompression.xz s1).2 in
  let s3 := (@extract Toy.collaborators ["out"] Decompression.none s2).2 in
  let s4 := (@__exit__ s3).2 in
  ~ released 1 s4 /\ closes 1 (trace s4) = closes 1 (trace s1).
Proof.
  intros s1 s2 s3 s4.
  destruct (@exit_releases_nothing Toy.collaborators s1) as (_ & _ & _ & Hcalls).
  destruct (Hcalls 1 (File (replicate 4 x00 ++ Toy.b "abcdef") 0 false) s4)
    as (Hopen & Hcloses & _).
  - reflexivity.
  - reflexivity.
  - apply (calls_then s1 s2); [apply call_extract_entry|].
    apply (calls_then s2 s3); [apply call_extract|].
    apply (calls_then s3 s4); [apply call_exit | apply calls_done].
  - split; [exact Hopen | exact Hcloses].
Defined.



(** X5 on the compressed toy archive: [a.txt] is extracted, then
    [../evil] is refused. *)
Lemma extract_stops_at_rejected_name_witness :
  @extract Toy.collaborators ["out"] Decompression.none Toy.packed_state
  = (Raise (OutsideBasePath "../evil"),
     (@extract_entries Toy.collaborators ["out"] Decompression.none
        [IndexEntry "a.txt" 4 3] Toy.packed_state).2).
Proof.
  apply (@extract_stops_at_rejected_name Toy.collaborators ["out"] Decompression.none
           Toy.packed_state _ [IndexEntry "a.txt" 4 3] [] (IndexEntry "../evil" 7 3)).
  - reflexivity.
  - vm_compute. reflexivity.
  - vm_compute. reflexivity.
Defined.

(** X6 on the plain toy archive: [a.txt] after [dir/b.bin]. *)
Lemma extract_entry_any_order_witness :
  (@extract_entry Toy.collaborators (IndexEntry "a.txt" 8 3) Decompression.none
     (@extract_entry Toy.collaborators (IndexEntry "dir/b.bin" 11 5) Decompression.auto
        Toy.plain_state).2).1
  = (@extract_entry Toy.collaborators (IndexEntry "a.txt" 8 3) Decompression.none
       Toy.plain_state).1.
Proof.
  apply (@extract_entry_any_order Toy.collaborators _ _ _ _ Toy.plain_state 0
           (File (Toy.b "MAR1headabcBwxyz") 0 false)).
  - left. split; reflexivity.
  - reflexivity.
  - reflexivity.
Defined.

(** X9 on the archive with a matching and a non-matching signature: the
    first verifier accepts, the second reports an invalid signature. *)
Lemma verify_first_failure_decides_witness :
  (@verify Toy.collaborators (Toy.b "k1") Toy.two_sigs_state).1 = Ok false.
Proof.
  apply (@verify_first_failure_decides Toy.collaborators (Toy.b "k1")
           Toy.two_sigs_state
           (SigsHeader 8 [SigEntry 1 (Toy.b "k1MAR1head"); SigEntry 2 (Toy.b "bad")])
           [Toy.b "MAR1"; Toy.b "head"] 1
           (Toy.ToyVerifier (Toy.b "bad") (Toy.b "1kMAR1head")) InvalidSignature).
  - reflexivity.
  - constructor; [left; reflexivity|]. constructor; [right; reflexivity|]. constructor.
  - exists 0. eexists. exists (File (Toy.b "MAR1headabcBwxyz") 0 false).
    split; [vm_compute; reflexivity|]. repeat split; vm_compute; reflexivity.
  - vm_compute. reflexivity.
  - intros j w Hj Hw. destruct j as [|j]; [|lia].
    vm_compute in Hw. injection Hw as <-. vm_compute. reflexivity.
  - vm_compute. reflexivity.
Defined.


(** X11 with the toy verifiers, which accept or report an invalid
    signature. *)
Lemma verify_assertion_holds_witness :
  (@verify Toy.collaborators (Toy.b "k1") Toy.two_sigs_state).1 <> Raise AssertionError.
Proof.
  apply (@verify_assertion_holds Toy.collaborators).
  intros v Hv. cbn in Hv.
  destruct (Toy.bytes_eqb (Toy.tv_expected v) (Toy.tv_seen v)); discriminate Hv.
Defined.


(** X13 with the toy parser on the sixteen bytes of the plain archive. *)
Lemma init_is_lazy_witness :
  self (@__init__ Toy.parsing 0 Toy.plain_state).2 = Reader 0 None Toy.plain_mar false
  /\ @fileobj Toy.parsing (@__init__ Toy.parsing 0 Toy.plain_state).2
     = (Ok 0, (@__init__ Toy.parsing 0 Toy.plain_state).2).
Proof.
  assert (@__init__ Toy.parsing 0 Toy.plain_state
          = (Ok tt, (@__init__ Toy.parsing 0 Toy.plain_state).2)) as Hrun
    by (vm_compute; reflexivity).
  destruct (@init_is_lazy Toy.parsing 0 Toy.plain_state _ Hrun)
    as ((f & md & f' & Hf & _ & Hparse & Hself & _) & _ & _ & _ & _ & Hplain & _).
  vm_compute in Hf. injection Hf as <-.
  vm_compute in Hparse. injection Hparse as <- _.
  split; [exact Hself|]. apply Hplain. rewrite Hself. reflexivity.
Defined.
